(** * Flake: time-sortable 96-bit identifiers

    A shallow embedding of [flake.go] (package [flake]) and of the library
    routines it calls, followed by the properties of the generator and of
    the validator.

    Conventions.
    - A Go [uint64] is a [Z] kept in [0, 2^64); every operation that can
      leave that range is wrapped explicitly with [Go.uint64].
    - A Go [byte]/[uint8] is a [Byte.byte]; [Go.uint8] is the truncating
      conversion.
    - A run-time panic (slice bounds, index out of range, explicit [panic])
      is the [Panic] outcome; everything else returns with [Ret].
    - The wall clock and the random source are inputs of the operations that
      read them: [now] is the [int64] that [time.Now().UTC().UnixNano()]
      returned, and a [rand_read] is what [rand.Read] delivered.
    - The mutex serialises the three [Next*] methods, so one generator is a
      sequential state machine over [flake] records. *)

From Stdlib Require Import String Ascii DecimalString HexadecimalString.
From Stdlib Require Import DecimalPos DecimalN HexadecimalPos HexadecimalN.
From Stdlib Require Import ZArith List Lia Bool.
From Stdlib Require Import Sorting.Sorted.
From coqutil Require Import Byte Word.LittleEndianList Z.bitblast.
Import ListNotations.

Local Open Scope Z_scope.

(* ================================================================= *)
(** ** Go run-time model *)

Module Go.

(** Result of running a piece of Go code that may panic. *)
Inductive outcome (A : Type) : Type :=
| Ret (a : A)
| Panic.
Arguments Ret {A} a.
Arguments Panic {A}.

Definition bind {A B : Type} (m : outcome A) (k : A -> outcome B) : outcome B :=
  match m with
  | Ret a => k a
  | Panic => Panic
  end.

(** Conversion to [uint64]: two's-complement wrap-around. *)
Definition uint64 (z : Z) : Z := z mod 2 ^ 64.

(** Conversion to [uint8]. *)
Definition uint8 (z : Z) : byte := byte.of_Z z.

(** A slice value: the elements in [0, len) and the rest of the backing
    array up to the capacity. *)
Record slice : Type := mkSlice { elems : list byte; spare : list byte }.

Definition len (s : slice) : nat := length (elems s).
Definition cap (s : slice) : nat := length (elems s ++ spare s).

(** [make([]byte, n)]: [n] zero bytes, capacity [n]. *)
Definition make (n : nat) : list byte := repeat Byte.x00 n.

(** A freshly made or copied slice has no spare capacity. *)
Definition of_list (l : list byte) : slice := mkSlice l [].

(** [s[:n]]: legal up to the capacity, not just the length. *)
Definition upto (s : slice) (n : nat) : outcome (list byte) :=
  if (n <=? cap s)%nat then Ret (firstn n (elems s ++ spare s)) else Panic.

(** [s[i]]: legal below the length. *)
Definition index (l : list byte) (i : nat) : outcome byte :=
  match nth_error l i with
  | Some b => Ret b
  | None => Panic
  end.

(** [l[:n]] for a slice whose capacity is its length. *)
Definition prefix (l : list byte) (n : nat) : outcome (list byte) :=
  if (n <=? length l)%nat then Ret (firstn n l) else Panic.

(** [l[i] = b]. *)
Definition store (l : list byte) (i : nat) (b : byte) : outcome (list byte) :=
  if (i <? length l)%nat then Ret (firstn i l ++ b :: skipn (S i) l) else Panic.

(** Writing [src] over the first [length src] cells of [l], as a callee
    does through the shared backing array of [l[:n]]. *)
Definition overwrite (l src : list byte) : list byte :=
  src ++ skipn (length src) l.

End Go.

Import Go.

Notation "x <- m ;; k" := (Go.bind m (fun x => k))
  (at level 61, m at next level, right associativity).

(* ================================================================= *)
(** ** encoding/binary, big-endian byte order *)

Module Binary.

(** Bytes of [v], most significant first. *)
Definition be_split (n : nat) (v : Z) : list byte := rev (le_split n v).

(** Unsigned value of a byte string read most significant byte first. *)
Definition be_combine (bs : list byte) : Z := le_combine (rev bs).

(** [binary.BigEndian.Uint64(b)]: bounds check on [b[7]], then the first
    eight bytes. *)
Definition Uint64 (b : list byte) : outcome Z :=
  if (8 <=? length b)%nat then Ret (be_combine (firstn 8 b)) else Panic.

(** [binary.BigEndian.PutUint64(b, v)]: bounds check on [b[7]], then
    [b[0..7]] are overwritten. *)
Definition PutUint64 (b : list byte) (v : Z) : outcome (list byte) :=
  if (8 <=? length b)%nat then Ret (overwrite b (be_split 8 v)) else Panic.

End Binary.

(* ================================================================= *)
(** ** github.com/sigurn/crc8 *)

Module Crc8.

Record Params : Type := mkParams
  { Poly : Z; Init : Z; RefIn : bool; RefOut : bool; XorOut : Z; Check : Z }.

(** The parameter set named [crc8.CRC8]. *)
Definition CRC8 : Params := mkParams 0x07 0x00 false false 0x00 0xF4.

Record Table : Type := mkTable { params : Params; data : list byte }.

(** One round of the inner loop of [MakeTable]. *)
Definition shift_step (poly crc : Z) : Z :=
  let bit := negb (Z.land crc 0x80 =? 0) in
  let crc := Z.shiftl crc 1 mod 256 in
  if bit then Z.lxor crc poly else crc.

Definition table_entry (poly n : Z) : byte :=
  uint8 (Nat.iter 8 (shift_step poly) n).

Definition MakeTable (p : Params) : Table :=
  mkTable p (map (fun n => table_entry (Poly p) (Z.of_nat n)) (seq 0 256)).

(** Reversal of the eight bits of a byte, [bits.Reverse8]. *)
Definition Reverse8 (b : byte) : byte :=
  let '(b0, (b1, (b2, (b3, (b4, (b5, (b6, b7))))))) := Byte.to_bits b in
  Byte.of_bits (b7, (b6, (b5, (b4, (b3, (b2, (b1, b0))))))).

Definition lookup (t : Table) (i : byte) : byte :=
  nth (Z.to_nat (byte.unsigned i)) (data t) Byte.x00.

Definition Update (crc : byte) (d : list byte) (t : Table) : byte :=
  fold_left
    (fun crc d =>
       lookup t (byte.xor crc (if RefIn (params t) then Reverse8 d else d)))
    d crc.

Definition Complete (crc : byte) (t : Table) : byte :=
  byte.xor (if RefOut (params t) then Reverse8 crc else crc)
           (uint8 (XorOut (params t))).

Definition Checksum (d : list byte) (t : Table) : byte :=
  Complete (Update (uint8 (Init (params t))) d t) t.

End Crc8.


(* ================================================================= *)
(** ** encoding/hex *)

Module Hex.

Definition hextable : list byte := list_byte_of_string "0123456789abcdef".

Definition digit (n : Z) : byte := nth (Z.to_nat n) hextable Byte.x00.

Definition EncodedLen (n : nat) : nat := (n * 2)%nat.

(** Two lowercase digits per byte, high nibble first. *)
Fixpoint encode (src : list byte) : list byte :=
  match src with
  | [] => []
  | v :: r =>
      digit (Z.shiftr (byte.unsigned v) 4)
        :: digit (Z.land (byte.unsigned v) 0x0f) :: encode r
  end.

(** [hex.Encode(dst, src)]: the digits go to [dst[0 .. 2*len(src))]; a
    shorter [dst] is an index out of range. *)
Definition Encode (dst src : list byte) : outcome (list byte) :=
  if (EncodedLen (length src) <=? length dst)%nat
  then Ret (overwrite dst (encode src))
  else Panic.

Definition fromHexChar (c : byte) : option Z :=
  let n := byte.unsigned c in
  if (48 <=? n) && (n <=? 57) then Some (n - 48)
  else if (97 <=? n) && (n <=? 102) then Some (n - 97 + 10)
  else if (65 <=? n) && (n <=? 70) then Some (n - 65 + 10)
  else None.

(** Pairs of digits back to bytes; [None] for an invalid digit or an odd
    length. *)
Fixpoint decode (src : list byte) : option (list byte) :=
  match src with
  | [] => Some []
  | p :: q :: r =>
      match fromHexChar p, fromHexChar q, decode r with
      | Some a, Some b, Some t => Some (uint8 (Z.lor (Z.shiftl a 4) b) :: t)
      | _, _, _ => None
      end
  | [_] => None
  end.

(** [hex.Decode(dst, src)]: [Ret None] is the error return. *)
Definition Decode (dst src : list byte) : outcome (option (list byte)) :=
  match decode src with
  | None => Ret None
  | Some bs =>
      if (length bs <=? length dst)%nat then Ret (Some (overwrite dst bs))
      else Panic
  end.

End Hex.

(* ================================================================= *)
(** ** encoding/base64, [base64.URLEncoding] *)

Module Base64.

Definition encodeURL : list byte :=
  list_byte_of_string
    "ABCDEFGHIJKLMNOPQRSTUVWXYZabcdefghijklmnopqrstuvwxyz0123456789-_".

(** [StdPadding], the character [=]. *)
Definition StdPadding : byte := Byte.x3d.

Definition enc6 (v : Z) : byte :=
  nth (Z.to_nat (Z.land v 0x3F)) encodeURL Byte.x00.

Definition EncodedLen (n : nat) : nat := ((n + 2) / 3 * 4)%nat.

Fixpoint encode (src : list byte) : list byte :=
  match src with
  | [] => []
  | [a] =>
      let val := Z.shiftl (byte.unsigned a) 16 in
      [enc6 (Z.shiftr val 18); enc6 (Z.shiftr val 12); StdPadding; StdPadding]
  | [a; b] =>
      let val := Z.lor (Z.shiftl (byte.unsigned a) 16)
                       (Z.shiftl (byte.unsigned b) 8) in
      [enc6 (Z.shiftr val 18); enc6 (Z.shiftr val 12);
       enc6 (Z.shiftr val 6); StdPadding]
  | a :: b :: c :: r =>
      let val := Z.lor (Z.lor (Z.shiftl (byte.unsigned a) 16)
                              (Z.shiftl (byte.unsigned b) 8))
                       (byte.unsigned c) in
      enc6 (Z.shiftr val 18) :: enc6 (Z.shiftr val 12)
        :: enc6 (Z.shiftr val 6) :: enc6 val :: encode r
  end.

(** [enc.Encode(dst, src)]. *)
Definition Encode (dst src : list byte) : outcome (list byte) :=
  if (EncodedLen (length src) <=? length dst)%nat
  then Ret (overwrite dst (encode src))
  else Panic.

(** Position of a character in the alphabet. *)
Fixpoint position (c : byte) (alphabet : list byte) (i : Z) : option Z :=
  match alphabet with
  | [] => None
  | a :: r => if Byte.eqb a c then Some i else position c r (i + 1)
  end.

Definition decodeMap (c : byte) : option Z := position c encodeURL 0.

Definition is_pad (c : byte) : bool := Byte.eqb c StdPadding.

(** Quanta of four characters; padding is accepted in the last quantum
    only. *)
Fixpoint decode (src : list byte) : option (list byte) :=
  match src with
  | [] => Some []
  | c0 :: c1 :: c2 :: c3 :: r =>
      match decodeMap c0, decodeMap c1 with
      | Some d0, Some d1 =>
          let hi := Z.lor (Z.shiftl d0 18) (Z.shiftl d1 12) in
          if is_pad c3 then
            match r with
            | [] =>
                if is_pad c2 then Some [uint8 (Z.shiftr hi 16)]
                else
                  match decodeMap c2 with
                  | Some d2 =>
                      let val := Z.lor hi (Z.shiftl d2 6) in
                      Some [uint8 (Z.shiftr val 16); uint8 (Z.shiftr val 8)]
                  | None => None
                  end
            | _ :: _ => None
            end
          else
            match decodeMap c2, decodeMap c3, decode r with
            | Some d2, Some d3, Some t =>
                let val := Z.lor (Z.lor hi (Z.shiftl d2 6)) d3 in
                Some (uint8 (Z.shiftr val 16) :: uint8 (Z.shiftr val 8)
                        :: uint8 val :: t)
            | _, _, _ => None
            end
      | _, _ => None
      end
  | _ => None
  end.

Definition is_newline (c : byte) : bool :=
  Byte.eqb c Byte.x0a || Byte.eqb c Byte.x0d.

(** [enc.Decode(dst, src)]: line breaks are skipped; [Ret None] is the
    error return. *)
Definition Decode (dst src : list byte) : outcome (option (list byte)) :=
  match decode (filter (fun c => negb (is_newline c)) src) with
  | None => Ret None
  | Some bs =>
      if (length bs <=? length dst)%nat then Ret (Some (overwrite dst bs))
      else Panic
  end.

End Base64.

(* ================================================================= *)
(** ** fmt verbs used by the error messages *)

Module Fmt.

(** [%v] of an unsigned or non-negative integer: decimal digits. *)
Definition v (n : Z) : string :=
  DecimalString.NilZero.string_of_uint (N.to_uint (Z.to_N n)).

(** [%x] of a [uint8]: lowercase hexadecimal digits, no leading zero. *)
Definition x (b : byte) : string :=
  HexadecimalString.NilZero.string_of_uint (N.to_hex_uint (Byte.to_N b)).

End Fmt.

(* ================================================================= *)
(** ** Package flake *)

Module Flake.

Definition v0 : Z := Z.shiftl 0 60.
Definition v1 : Z := Z.shiftl 1 60.
Definition tsMask : Z := 0x0fffffffffffff00.
Definition vMask : Z := 0xf000000000000000.

Definition crcT : Crc8.Table := Crc8.MakeTable Crc8.CRC8.

(** The fields of [struct flake] that the mutex protects. *)
Record flake : Type := mkFlake
  { buf : list byte; enc : list byte; counter : Z; lts : Z }.

Definition set_enc (e : list byte) (f : flake) : flake :=
  mkFlake (buf f) e (counter f) (lts f).

(** What [rand.Read(tmp)] did to the one-byte [tmp]. *)
Inductive rand_read : Type :=
| ReadOk (tmp0 : byte)
| ReadErr.

(** [copy(dst, src)]. *)
Definition copy (dst src : list byte) : list byte :=
  overwrite dst (firstn (length dst) src).

Definition New (wid : Z) (r : rand_read) : outcome flake :=
  let buf := make 12 in
  buf <- store buf 8 (uint8 (Z.shiftr wid 16)) ;;
  buf <- store buf 9 (uint8 (Z.shiftr wid 8)) ;;
  buf <- store buf 10 (uint8 wid) ;;
  match r with
  | ReadErr => Panic
  | ReadOk tmp0 =>
      Ret (mkFlake buf (make (Hex.EncodedLen (length buf)))
                   (byte.unsigned tmp0) 0)
  end.

Definition tick (now : Z) (f : flake) : outcome flake :=
  let ts := uint64 now in
  let ts := ts / 1000 in
  let ts := uint64 (Z.shiftl ts 8) in
  let ts := Z.lor (Z.lor v1 ts) (counter f) in
  let counter' :=
    if ts <=? lts f then Z.land (uint64 (counter f + 1)) 0xff
    else counter f in
  let lts' := ts in
  b8 <- prefix (buf f) 8 ;;
  b8 <- Binary.PutUint64 b8 (Z.lor (Z.lor v1 ts) counter') ;;
  let buf' := overwrite (buf f) b8 in
  b11 <- prefix buf' 11 ;;
  buf' <- store buf' 11 (Crc8.Checksum b11 crcT) ;;
  Ret (mkFlake buf' (enc f) counter' lts').

Definition Next (now : Z) (f : flake) : outcome (list byte * flake) :=
  f <- tick now f ;;
  let ret := make (length (buf f)) in
  let ret := copy ret (buf f) in
  Ret (ret, f).

Definition NextHex (now : Z) (f : flake) : outcome (string * flake) :=
  f <- tick now f ;;
  e <- Hex.Encode (enc f) (buf f) ;;
  Ret (string_of_list_byte e, set_enc e f).

Definition NextB64 (now : Z) (f : flake) : outcome (string * flake) :=
  f <- tick now f ;;
  e16 <- prefix (enc f) 16 ;;
  e16 <- Base64.Encode e16 (buf f) ;;
  let e := overwrite (enc f) e16 in
  s <- prefix e 16 ;;
  Ret (string_of_list_byte s, set_enc e f).

Definition version_error (v : Z) : string :=
  "expected Flake v1, got v" ++ Fmt.v v.

Definition length_error (lid : nat) : string :=
  "expected length 12, got " ++ Fmt.v (Z.of_nat lid).

Definition crc_error (fcs stored : byte) : string :=
  "CRC8 mismatch " ++ Fmt.x fcs ++ " != " ++ Fmt.x stored.

(** The [error] result: [None] is [nil], [Some msg] an error whose text is
    [msg]. *)
Definition Validate (id : slice) : outcome (option string) :=
  id8 <- upto id 8 ;;
  ts <- Binary.Uint64 id8 ;;
  let v := Z.shiftr ts 60 in
  if negb (v =? 1) then Ret (Some (version_error v))
  else
    let lid := len id in
    if negb (lid =? 12)%nat then Ret (Some (length_error lid))
    else
      id11 <- upto id 11 ;;
      let fcs := Crc8.Checksum id11 crcT in
      b <- index (elems id) 11 ;;
      if negb (Byte.eqb fcs b) then Ret (Some (crc_error fcs b))
      else Ret None.

(** *** One generator as a state machine *)

Inductive call : Type := CallNext | CallNextHex | CallNextB64.

Inductive output : Type :=
| Bytes (id : list byte)
| Text (s : string).

Definition step (c : call) (now : Z) (f : flake) : outcome (output * flake) :=
  match c with
  | CallNext => r <- Next now f ;; Ret (Bytes (fst r), snd r)
  | CallNextHex => r <- NextHex now f ;; Ret (Text (fst r), snd r)
  | CallNextB64 => r <- NextB64 now f ;; Ret (Text (fst r), snd r)
  end.

(** States a generator built by [New wid] can be in. *)
Inductive reachable (wid : Z) : flake -> Prop :=
| reach_New r f :
    New wid r = Ret f -> reachable wid f
| reach_step c now f out f' :
    reachable wid f -> step c now f = Ret (out, f') -> reachable wid f'.

(** Successive [Next] calls, one per clock reading. *)
Fixpoint Nexts (clock : list Z) (f : flake) : outcome (list (list byte) * flake) :=
  match clock with
  | [] => Ret ([], f)
  | now :: rest =>
      r <- Next now f ;;
      rs <- Nexts rest (snd r) ;;
      Ret (fst r :: fst rs, snd rs)
  end.

(** Microseconds that [tick] derives from a clock reading. *)
Definition usec (now : Z) : Z := uint64 now / 1000.

(** The identifier fields, by bit position. *)
Definition word_of (id : list byte) : Z := Binary.be_combine (firstn 8 id).
Definition version_of (id : list byte) : Z := Z.shiftr (word_of id) 60.
Definition timestamp_of (id : list byte) : Z :=
  Z.land (Z.shiftr (word_of id) 8) (Z.ones 52).
Definition counter_of (id : list byte) : Z := Z.land (word_of id) 0xff.
Definition worker_of (id : list byte) : list byte := firstn 3 (skipn 8 id).

(** Successive calls of any of the three methods. *)
Fixpoint run (calls : list (call * Z)) (f : flake)
  : outcome (list output * flake) :=
  match calls with
  | [] => Ret ([], f)
  | (c, now) :: rest =>
      r <- step c now f ;;
      rs <- run rest (snd r) ;;
      Ret (fst r :: fst rs, snd rs)
  end.

(** Names for the values [tick] computes on the way: the word it compares
    with [lts], the counter it leaves behind, and the word it writes. *)
Definition candidate (now : Z) (f : flake) : Z :=
  Z.lor (Z.lor v1 (uint64 (Z.shiftl (usec now) 8))) (counter f).

Definition next_counter (now : Z) (f : flake) : Z :=
  if candidate now f <=? lts f then Z.land (uint64 (counter f + 1)) 0xff
  else counter f.

Definition emitted (now : Z) (f : flake) : Z :=
  Z.lor (Z.lor v1 (candidate now f)) (next_counter now f).

(** Twelve bytes from a time-word and three worker bytes. *)
Definition assemble (w : Z) (worker : list byte) : list byte :=
  let b := Binary.be_split 8 w ++ worker in
  b ++ [Crc8.Checksum b crcT].

(** The identifier and the state one [tick] leads to. *)
Definition next_id (now : Z) (f : flake) : list byte :=
  assemble (emitted now f) (worker_of (buf f)).

Definition ticked (now : Z) (f : flake) : flake :=
  mkFlake (next_id now f) (enc f) (next_counter now f) (candidate now f).

(** The identifier read as one unsigned big-endian integer. *)
Definition id_value (id : list byte) : Z := Binary.be_combine id.

(** Where an identifier stamped with the microsecond of [now] lies when
    its fields do not overlap. *)
Definition in_slot (now : Z) (id : list byte) : Prop :=
  (2 ^ 60 + usec now * 2 ^ 8) * 2 ^ 32 <= id_value id
    < (2 ^ 60 + (usec now + 1) * 2 ^ 8) * 2 ^ 32 /\
  2 ^ 60 + usec now * 2 ^ 8 <= word_of id < 2 ^ 60 + (usec now + 1) * 2 ^ 8.

(** What every state of a generator for [wid] satisfies. *)
Definition well_formed (wid : Z) (f : flake) : Prop :=
  length (buf f) = 12%nat /\
  length (enc f) = 24%nat /\
  0 <= counter f < 256 /\
  worker_of (buf f) = Binary.be_split 3 (wid mod 2 ^ 24).

End Flake.

(* ================================================================= *)
(** ** Sample values *)

Module Samples.

Import Flake.

(** The worker identity of the package's tests. *)
Definition AAx24 : Z := 0x00aaaaaa.

(** The generator [New(AAx24)] returns when the random byte is 1. *)
Definition gen : flake :=
  mkFlake (repeat Byte.x00 8 ++ [Byte.xaa; Byte.xaa; Byte.xaa; Byte.x00])
          (make 24) 1 0.

(** A clock reading of [2^53] microseconds, in nanoseconds (year 2255). *)
Definition far_future : Z := 2 ^ 53 * 1000.

(** A well-formed identifier (generated at 1700000000 s, counter 1). *)
Definition valid_id : list byte :=
  [Byte.x16; Byte.x0a; Byte.x24; Byte.x18; Byte.x1e; Byte.x40;
   Byte.x00; Byte.x01; Byte.xaa; Byte.xaa; Byte.xaa; Byte.xf2].

End Samples.

(* ================================================================= *)
(** * Properties *)

Import Flake.

Local Arguments Crc8.Checksum : simpl never.

Section ListFacts.

Lemma prefix_ok (l : list byte) (n : nat) :
  (n <= length l)%nat -> prefix l n = Ret (firstn n l).
Proof.
  intros H. unfold prefix.
  destruct (Nat.leb_spec n (length l)); [reflexivity | lia].
Qed.

Lemma store_ok (l : list byte) (i : nat) (b : byte) :
  (i < length l)%nat -> store l i b = Ret (firstn i l ++ b :: skipn (S i) l).
Proof.
  intros H. unfold store.
  destruct (Nat.ltb_spec i (length l)); [reflexivity | lia].
Qed.

Lemma overwrite_all (l src : list byte) :
  length src = length l -> overwrite l src = src.
Proof.
  intros H. unfold overwrite. rewrite H, skipn_all. apply app_nil_r.
Qed.

Lemma length_overwrite (l src : list byte) :
  (length src <= length l)%nat -> length (overwrite l src) = length l.
Proof.
  intros H. unfold overwrite. rewrite length_app, length_skipn. lia.
Qed.

End ListFacts.

Section BigEndian.

Lemma length_be_split (n : nat) (v : Z) : length (Binary.be_split n v) = n.
Proof. unfold Binary.be_split. now rewrite length_rev, length_le_split. Qed.

Lemma be_combine_split (n : nat) (v : Z) :
  Binary.be_combine (Binary.be_split n v) = v mod 2 ^ (Z.of_nat n * 8).
Proof.
  unfold Binary.be_combine, Binary.be_split.
  rewrite rev_involutive. apply le_combine_split.
Qed.

Lemma be_combine_bound (bs : list byte) :
  0 <= Binary.be_combine bs < 2 ^ (8 * Z.of_nat (length bs)).
Proof.
  unfold Binary.be_combine.
  pose proof (le_combine_bound (rev bs)) as H.
  now rewrite length_rev in H.
Qed.

(** A big-endian string is its head part shifted past its tail part. *)
Lemma be_combine_app (hi lo : list byte) :
  Binary.be_combine (hi ++ lo) =
  Binary.be_combine hi * 2 ^ (8 * Z.of_nat (length lo)) + Binary.be_combine lo.
Proof.
  pose proof (be_combine_bound lo) as Hlo.
  unfold Binary.be_combine in *.
  rewrite rev_app_distr, le_combine_app, length_rev.
  rewrite Z.shiftl_mul_pow2 by lia.
  rewrite Z.or_to_plus.
  - rewrite (Z.mul_comm (Z.of_nat _) 8). lia.
  - apply Z.bits_inj'. intros i Hi.
    rewrite Z.land_spec, Z.bits_0.
    destruct (Z_lt_le_dec i (8 * Z.of_nat (length lo))) as [Hlt | Hge].
    + rewrite (Z.mul_comm (Z.of_nat _) 8).
      rewrite Z.mul_pow2_bits_low by lia. apply andb_false_r.
    + rewrite (prove_Zeq_bitwise.testbit_above Hlo) by lia. reflexivity.
Qed.

End BigEndian.

Section TickFacts.

(** [tick] on a twelve-byte buffer, in closed form. *)
Lemma tick_spec (now : Z) (f : flake) :
  length (buf f) = 12%nat ->
  tick now f =
  Ret (mkFlake (assemble (emitted now f) (worker_of (buf f)))
               (enc f) (next_counter now f) (candidate now f)).
Proof.
  intros Hlen. unfold tick.
  fold (usec now). fold (candidate now f). fold (next_counter now f).
  fold (emitted now f).
  rewrite prefix_ok by lia. cbn [bind].
  unfold Binary.PutUint64.
  rewrite length_firstn, Hlen. cbn [Nat.min Nat.leb bind].
  rewrite (overwrite_all (firstn 8 (buf f)))
    by (rewrite length_be_split, length_firstn; lia).
  assert (Hbuf : overwrite (buf f) (Binary.be_split 8 (emitted now f)) =
                 Binary.be_split 8 (emitted now f) ++ skipn 8 (buf f)).
  { unfold overwrite. now rewrite length_be_split. }
  rewrite Hbuf.
  assert (Hl : length (Binary.be_split 8 (emitted now f) ++ skipn 8 (buf f)) = 12%nat).
  { rewrite length_app, length_be_split, length_skipn. lia. }
  rewrite prefix_ok by lia. cbn [bind].
  rewrite store_ok by lia. cbn [bind].
  unfold assemble, worker_of.
  do 2 f_equal.
  rewrite !firstn_app, !length_be_split.
  rewrite (firstn_all2 (n := 11)) by (rewrite length_be_split; lia).
  change (11 - 8)%nat with 3%nat.
  rewrite (skipn_all2 (n := 12)) by (rewrite Hl; lia).
  reflexivity.
Qed.

End TickFacts.

Section WordFacts.

Lemma lor_bound (a b n : Z) :
  0 <= a < 2 ^ n -> 0 <= b < 2 ^ n -> 0 <= Z.lor a b < 2 ^ n.
Proof.
  intros Ha Hb.
  assert (Hn : 0 <= n).
  { destruct (Z_lt_le_dec n 0) as [Hneg | ]; [ | assumption].
    rewrite (Z.pow_neg_r 2 n Hneg) in Ha. lia. }
  split; [apply Z.lor_nonneg; lia | ].
  destruct (Z.eq_dec a 0) as [-> | Ha0]; [rewrite Z.lor_0_l; lia | ].
  destruct (Z.eq_dec b 0) as [-> | Hb0]; [rewrite Z.lor_0_r; lia | ].
  assert (Hpos : 0 < Z.lor a b).
  { assert (0 <= Z.lor a b) by (apply Z.lor_nonneg; lia).
    assert (Z.lor a b <> 0) by (rewrite Z.lor_eq_0_iff; lia). lia. }
  apply Z.log2_lt_pow2; [assumption | ].
  rewrite Z.log2_lor by lia.
  apply Z.max_lub_lt; apply Z.log2_lt_pow2; lia.
Qed.

(** Below bit [k] a multiple of [2^k] is empty, so [|] is [+]. *)
Lemma lor_high_low (hi lo k : Z) :
  0 <= k -> 0 <= lo < 2 ^ k -> Z.lor (hi * 2 ^ k) lo = hi * 2 ^ k + lo.
Proof.
  intros Hk Hlo. apply Z.or_to_plus.
  apply Z.bits_inj'. intros i Hi.
  rewrite Z.land_spec, Z.bits_0.
  destruct (Z_lt_le_dec i k).
  - now rewrite Z.mul_pow2_bits_low by lia.
  - rewrite (prove_Zeq_bitwise.testbit_above Hlo) by lia. apply andb_false_r.
Qed.

Lemma usec_nonneg (now : Z) : 0 <= usec now.
Proof.
  unfold usec, uint64. apply Z.div_pos; [ | lia].
  apply Z.mod_pos_bound. lia.
Qed.

Lemma next_counter_bound (now : Z) (f : flake) :
  0 <= counter f < 256 -> 0 <= next_counter now f < 256.
Proof.
  intros Hc. unfold next_counter.
  destruct (candidate now f <=? lts f); [ | assumption].
  change 0xff with (Z.ones 8). rewrite Z.land_ones by lia.
  apply Z.mod_pos_bound. lia.
Qed.

Lemma candidate_bound (now : Z) (f : flake) :
  0 <= counter f < 256 -> 0 <= candidate now f < 2 ^ 64.
Proof.
  intros Hc. unfold candidate.
  repeat apply lor_bound; try (unfold v1; cbn; lia); try lia.
  unfold uint64. apply Z.mod_pos_bound. lia.
Qed.

Lemma emitted_bound (now : Z) (f : flake) :
  0 <= counter f < 256 -> 0 <= emitted now f < 2 ^ 64.
Proof.
  intros Hc. unfold emitted.
  pose proof (candidate_bound now f Hc).
  pose proof (next_counter_bound now f Hc).
  apply lor_bound; [apply lor_bound | ]; try lia.
  unfold v1; cbn; lia.
Qed.

(** The written word: the version bit, the shifted clock, and both the
    old and the new counter in the low byte. *)
Lemma emitted_lor (now : Z) (f : flake) :
  emitted now f =
  Z.lor (Z.lor v1 (uint64 (Z.shiftl (usec now) 8)))
        (Z.lor (counter f) (next_counter now f)).
Proof.
  unfold emitted, candidate.
  rewrite !Z.lor_assoc, Z.lor_diag. reflexivity.
Qed.

Lemma shifted_usec (now : Z) :
  usec now < 2 ^ 52 -> uint64 (Z.shiftl (usec now) 8) = usec now * 2 ^ 8.
Proof.
  intros Hu. pose proof (usec_nonneg now).
  rewrite Z.shiftl_mul_pow2 by lia.
  unfold uint64. apply Z.mod_small. lia.
Qed.

(** With a clock below [2^52] microseconds the fields do not overlap. *)
Lemma emitted_value (now : Z) (f : flake) :
  0 <= counter f < 256 ->
  usec now < 2 ^ 52 ->
  emitted now f =
  2 ^ 60 + usec now * 2 ^ 8 + Z.lor (counter f) (next_counter now f).
Proof.
  intros Hc Hu.
  pose proof (usec_nonneg now) as Hu0.
  pose proof (next_counter_bound now f Hc) as Hn.
  assert (Hcc : 0 <= Z.lor (counter f) (next_counter now f) < 2 ^ 8)
    by (apply lor_bound; lia).
  rewrite emitted_lor, shifted_usec by assumption.
  change v1 with (1 * 2 ^ 60).
  rewrite (lor_high_low 1 _ 60) by lia.
  replace (1 * 2 ^ 60 + usec now * 2 ^ 8) with ((2 ^ 52 + usec now) * 2 ^ 8) by lia.
  rewrite lor_high_low by lia. lia.
Qed.

End WordFacts.

Section CodecLengths.

Lemma length_hex_encode (src : list byte) :
  length (Hex.encode src) = Hex.EncodedLen (length src).
Proof.
  unfold Hex.EncodedLen.
  induction src as [ | v r IH]; [reflexivity | ].
  cbn [Hex.encode length]. rewrite IH. lia.
Qed.

Lemma length_base64_encode (k : nat) :
  forall src : list byte,
    length src = (3 * k)%nat -> length (Base64.encode src) = (4 * k)%nat.
Proof.
  induction k as [ | k IH]; intros src Hlen.
  - destruct src; [reflexivity | discriminate].
  - destruct src as [ | a [ | b [ | c r]]]; cbn [length] in Hlen; try lia.
    cbn [Base64.encode length]. rewrite (IH r) by lia. lia.
Qed.

End CodecLengths.

Section StepFacts.

Lemma length_worker_of (l : list byte) :
  length l = 12%nat -> length (worker_of l) = 3%nat.
Proof.
  intros H. unfold worker_of. rewrite length_firstn, length_skipn. lia.
Qed.

Lemma length_assemble (w : Z) (wk : list byte) :
  length wk = 3%nat -> length (assemble w wk) = 12%nat.
Proof.
  intros H. unfold assemble. rewrite !length_app, length_be_split, H.
  reflexivity.
Qed.

Lemma worker_of_assemble (w : Z) (wk : list byte) :
  length wk = 3%nat -> worker_of (assemble w wk) = wk.
Proof.
  intros H. unfold assemble, worker_of.
  rewrite <- !app_assoc.
  rewrite skipn_app, length_be_split, Nat.sub_diag.
  rewrite skipn_all2 by (rewrite length_be_split; lia).
  cbn [skipn app].
  rewrite firstn_app, H, Nat.sub_diag.
  rewrite firstn_all2 by lia. rewrite firstn_O. apply app_nil_r.
Qed.

Lemma length_next_id (now : Z) (f : flake) :
  length (buf f) = 12%nat -> length (next_id now f) = 12%nat.
Proof.
  intros H. apply length_assemble, length_worker_of, H.
Qed.

Lemma tick_ticked (now : Z) (f : flake) :
  length (buf f) = 12%nat -> tick now f = Ret (ticked now f).
Proof. apply tick_spec. Qed.

Lemma Next_spec (now : Z) (f : flake) :
  length (buf f) = 12%nat ->
  Next now f = Ret (next_id now f, ticked now f).
Proof.
  intros H. unfold Next. rewrite tick_ticked by assumption.
  cbn [bind buf ticked]. do 2 f_equal.
  unfold copy, make.
  rewrite repeat_length, firstn_all.
  apply overwrite_all. now rewrite repeat_length.
Qed.

Lemma NextHex_spec (now : Z) (f : flake) :
  length (buf f) = 12%nat ->
  length (enc f) = 24%nat ->
  NextHex now f =
  Ret (string_of_list_byte (Hex.encode (next_id now f)),
       set_enc (Hex.encode (next_id now f)) (ticked now f)).
Proof.
  intros Hb He. unfold NextHex. rewrite tick_ticked by assumption.
  cbn [bind buf enc ticked].
  unfold Hex.Encode.
  rewrite length_next_id, He by assumption. cbn [Hex.EncodedLen Nat.mul Nat.add Nat.leb].
  cbn [bind].
  rewrite overwrite_all; [reflexivity | ].
  rewrite length_hex_encode, length_next_id, He by assumption. reflexivity.
Qed.

Lemma NextB64_spec (now : Z) (f : flake) :
  length (buf f) = 12%nat ->
  length (enc f) = 24%nat ->
  NextB64 now f =
  Ret (string_of_list_byte (Base64.encode (next_id now f)),
       set_enc (Base64.encode (next_id now f) ++ skipn 16 (enc f))
               (ticked now f)).
Proof.
  intros Hb He. unfold NextB64. rewrite tick_ticked by assumption.
  cbn [bind buf enc ticked].
  pose proof (length_base64_encode 4 (next_id now f)
                (length_next_id now f Hb)) as Hl.
  rewrite prefix_ok by lia. cbn [bind].
  unfold Base64.Encode.
  rewrite length_next_id, length_firstn, He by assumption.
  cbn [Base64.EncodedLen Nat.add Nat.div Nat.divmod Nat.mul fst Nat.min Nat.leb bind].
  rewrite (overwrite_all (firstn 16 (enc f)))
    by (rewrite Hl, length_firstn, He; reflexivity).
  change (4 * 4)%nat with 16%nat in Hl.
  unfold overwrite. rewrite Hl.
  rewrite prefix_ok by (rewrite length_app, Hl; lia). cbn [bind].
  rewrite firstn_app, Hl, Nat.sub_diag, firstn_O, app_nil_r.
  rewrite firstn_all2 by lia. reflexivity.
Qed.

End StepFacts.

Section Invariant.

Variable wid : Z.

Lemma be_split_worker :
  Binary.be_split 3 (wid mod 2 ^ 24) =
  [uint8 (Z.shiftr wid 16); uint8 (Z.shiftr wid 8); uint8 wid].
Proof.
  unfold Binary.be_split.
  change (2 ^ 24) with (2 ^ (Z.of_nat 3 * 8)).
  rewrite <- le_split_mod.
  cbv [le_split rev app uint8].
  rewrite Z.shiftr_shiftr by lia. reflexivity.
Qed.

Lemma New_spec (tmp0 : byte) :
  New wid (ReadOk tmp0) =
  Ret (mkFlake
         (repeat Byte.x00 8 ++
          [uint8 (Z.shiftr wid 16); uint8 (Z.shiftr wid 8); uint8 wid;
           Byte.x00])
         (make 24) (byte.unsigned tmp0) 0).
Proof. reflexivity. Qed.

Lemma New_well_formed (r : rand_read) (f : flake) :
  New wid r = Ret f -> well_formed wid f.
Proof.
  destruct r as [tmp0 | ]; [ | discriminate].
  rewrite New_spec. intros [= <-].
  unfold well_formed. cbn [buf enc counter].
  repeat split; try reflexivity.
  - apply byte.unsigned_range.
  - pose proof (byte.unsigned_range tmp0). cbn in *. lia.
  - now rewrite be_split_worker.
Qed.

Lemma ticked_well_formed (now : Z) (f : flake) (e : list byte) :
  well_formed wid f -> length e = 24%nat ->
  well_formed wid (set_enc e (ticked now f)).
Proof.
  intros (Hb & He & Hc & Hw) Hlen.
  unfold well_formed, set_enc. cbn [buf enc counter lts ticked].
  repeat split.
  - now apply length_next_id.
  - assumption.
  - apply next_counter_bound; assumption.
  - apply next_counter_bound; assumption.
  - unfold next_id. rewrite worker_of_assemble; [assumption | ].
    now apply length_worker_of.
Qed.

Lemma step_well_formed (c : call) (now : Z) (f f' : flake) (out : output) :
  well_formed wid f -> step c now f = Ret (out, f') -> well_formed wid f'.
Proof.
  intros Hwf. pose proof Hwf as (Hb & He & _).
  destruct c; unfold step.
  - rewrite Next_spec by assumption. cbn [bind fst snd]. intros H.
    assert (Hf : f' = ticked now f) by congruence.
    rewrite Hf. change (ticked now f) with (set_enc (enc f) (ticked now f)).
    apply ticked_well_formed; assumption.
  - rewrite NextHex_spec by assumption. cbn [bind fst snd]. intros H.
    assert (Hf : f' = set_enc (Hex.encode (next_id now f)) (ticked now f))
      by congruence.
    rewrite Hf. apply ticked_well_formed; [assumption | ].
    rewrite length_hex_encode, length_next_id by assumption. reflexivity.
  - rewrite NextB64_spec by assumption. cbn [bind fst snd]. intros H.
    assert (Hf : f' = set_enc (Base64.encode (next_id now f) ++ skipn 16 (enc f))
                             (ticked now f)) by congruence.
    rewrite Hf. apply ticked_well_formed; [assumption | ].
    rewrite length_app, length_skipn, He.
    rewrite (length_base64_encode 4) by (apply length_next_id; assumption).
    reflexivity.
Qed.

Lemma reachable_well_formed (f : flake) :
  reachable wid f -> well_formed wid f.
Proof.
  induction 1 as [r f Hnew | c now f out f' _ IH Hstep].
  - exact (New_well_formed r f Hnew).
  - exact (step_well_formed c now f f' out IH Hstep).
Qed.

(** No call on a well-formed generator panics. *)
Lemma step_returns (c : call) (now : Z) (f : flake) :
  well_formed wid f -> exists out f', step c now f = Ret (out, f').
Proof.
  intros (Hb & He & _).
  destruct c; unfold step.
  - rewrite Next_spec by assumption. cbn [bind]. eauto.
  - rewrite NextHex_spec by assumption. cbn [bind]. eauto.
  - rewrite NextB64_spec by assumption. cbn [bind]. eauto.
Qed.

Lemma run_returns (calls : list (call * Z)) :
  forall f, well_formed wid f ->
            exists outs f', run calls f = Ret (outs, f') /\ well_formed wid f'.
Proof.
  induction calls as [ | [c now] rest IH]; intros f Hwf; cbn [run].
  - eauto.
  - destruct (step_returns c now f Hwf) as (out & f1 & Hstep).
    rewrite Hstep. cbn [bind snd fst].
    destruct (IH f1 (step_well_formed c now f f1 out Hwf Hstep))
      as (outs & f' & Hrun & Hwf').
    rewrite Hrun. cbn [bind fst snd]. eauto.
Qed.

End Invariant.
Section Ordering.

Variable wid : Z.

(** The twelve bytes as an integer: the time-word above 32 low bits. *)
Lemma id_value_next_id (now : Z) (f : flake) :
  well_formed wid f ->
  exists tail : Z,
    0 <= tail < 2 ^ 32 /\
    id_value (next_id now f) = emitted now f * 2 ^ 32 + tail.
Proof.
  intros (Hb & _ & Hc & _).
  pose proof (length_worker_of (buf f) Hb) as Hw.
  exists (Binary.be_combine
            (worker_of (buf f) ++
             [Crc8.Checksum
                (Binary.be_split 8 (emitted now f) ++ worker_of (buf f)) crcT])).
  split.
  - match goal with |- 0 <= Binary.be_combine ?l < _ =>
      pose proof (be_combine_bound l) as Hbd;
      replace (length l) with 4%nat in Hbd
        by (rewrite length_app, Hw; reflexivity)
    end.
    exact Hbd.
  - unfold id_value, next_id, assemble.
    rewrite <- app_assoc, be_combine_app, be_combine_split.
    rewrite length_app, Hw. cbn [length Nat.add].
    change (Z.of_nat 8 * 8) with 64. change (8 * Z.of_nat 4) with 32.
    rewrite Z.mod_small by (apply emitted_bound; assumption).
    reflexivity.
Qed.

Lemma word_of_next_id (now : Z) (f : flake) :
  well_formed wid f -> word_of (next_id now f) = emitted now f.
Proof.
  intros (Hb & _ & Hc & _).
  unfold word_of, next_id, assemble.
  rewrite <- app_assoc.
  rewrite firstn_app, length_be_split, Nat.sub_diag, firstn_O, app_nil_r.
  rewrite firstn_all2 by (rewrite length_be_split; lia).
  rewrite be_combine_split.
  apply Z.mod_small, emitted_bound; assumption.
Qed.

Lemma next_id_in_slot (now : Z) (f : flake) :
  well_formed wid f -> usec now < 2 ^ 52 -> in_slot now (next_id now f).
Proof.
  intros Hwf Hu. pose proof Hwf as (_ & _ & Hc & _).
  unfold in_slot.
  destruct (id_value_next_id now f Hwf) as (tail & Htail & ->).
  rewrite (word_of_next_id now f Hwf).
  rewrite (emitted_value now f Hc Hu).
  pose proof (next_counter_bound now f Hc) as Hn.
  assert (0 <= Z.lor (counter f) (next_counter now f) < 2 ^ 8)
    by (apply lor_bound; lia).
  lia.
Qed.

Lemma Nexts_in_slots (clock : list Z) :
  forall f,
    well_formed wid f ->
    Forall (fun now => usec now < 2 ^ 52) clock ->
    exists ids f',
      Nexts clock f = Ret (ids, f') /\ well_formed wid f' /\
      Forall2 in_slot clock ids.
Proof.
  induction clock as [ | now rest IH]; intros f Hwf Hall; cbn [Nexts].
  - exists [], f. split; [reflexivity | split; [assumption | constructor]].
  - inversion Hall as [ | ? ? Hnow Hrest]; subst.
    pose proof Hwf as (Hb & _).
    rewrite Next_spec by assumption. cbn [bind fst snd].
    assert (Hwf1 : well_formed wid (ticked now f)).
    { change (ticked now f) with (set_enc (enc f) (ticked now f)).
      apply ticked_well_formed; [assumption | apply Hwf]. }
    destruct (IH _ Hwf1 Hrest) as (ids & f' & Hrun & Hwf' & Hslots).
    rewrite Hrun. cbn [bind fst snd].
    exists (next_id now f :: ids), f'.
    split; [reflexivity | split; [assumption | ]].
    constructor; [ | assumption].
    apply next_id_in_slot; assumption.
Qed.

Lemma slots_sorted (clock : list Z) (ids : list (list byte)) :
  Forall2 in_slot clock ids ->
  Sorted (fun a b => usec a < usec b) clock ->
  Sorted Z.lt (map id_value ids) /\ Sorted Z.lt (map word_of ids).
Proof.
  induction 1 as [ | now id clock ids Hslot Hrest IH]; intros Hs; cbn [map].
  - split; constructor.
  - inversion Hs as [ | ? ? Hs' Hhd]; subst.
    destruct (IH Hs') as [IHv IHw].
    destruct Hslot as [Hv Hw].
    split; (constructor; [assumption | ]).
    + destruct Hrest as [ | now2 id2 ? ? [Hv2 _] _]; cbn [map]; constructor.
      inversion Hhd; subst. lia.
    + destruct Hrest as [ | now2 id2 ? ? [_ Hw2] _]; cbn [map]; constructor.
      inversion Hhd; subst. lia.
Qed.

End Ordering.

Section ValidateFacts.

Lemma upto_ok (id : slice) (n : nat) :
  (n <= cap id)%nat -> upto id n = Ret (firstn n (elems id ++ spare id)).
Proof.
  intros H. unfold upto.
  destruct (Nat.leb_spec n (cap id)); [reflexivity | lia].
Qed.

Lemma upto_short (id : slice) (n : nat) :
  (cap id < n)%nat -> upto id n = Panic.
Proof.
  intros H. unfold upto.
  destruct (Nat.leb_spec n (cap id)); [lia | reflexivity].
Qed.

(** [Validate] without the run-time checks, once eight bytes can be read. *)
Lemma Validate_spec (id : slice) :
  (8 <= cap id)%nat ->
  Validate id =
  Ret (let v := Z.shiftr (Binary.be_combine (firstn 8 (elems id ++ spare id))) 60 in
       let fcs := Crc8.Checksum (firstn 11 (elems id)) crcT in
       let stored := nth 11 (elems id) Byte.x00 in
       if negb (v =? 1) then Some (version_error v)
       else if negb (len id =? 12)%nat then Some (length_error (len id))
       else if negb (Byte.eqb fcs stored) then Some (crc_error fcs stored)
       else None).
Proof.
  intros Hcap. unfold Validate.
  rewrite upto_ok by assumption. cbn [bind].
  unfold Binary.Uint64.
  assert (Hl8 : length (firstn 8 (elems id ++ spare id)) = 8%nat)
    by (rewrite length_firstn; unfold cap in Hcap; lia).
  rewrite Hl8. cbn [Nat.leb bind].
  rewrite (firstn_all2 (n := 8) (firstn 8 (elems id ++ spare id)))
    by (rewrite Hl8; lia).
  cbv zeta.
  destruct (negb (_ =? 1)); [reflexivity | ].
  destruct (Nat.eqb_spec (len id) 12) as [Hlen | Hlen]; cbn [negb];
    [ | reflexivity].
  unfold len in Hlen.
  rewrite upto_ok by (unfold cap; rewrite length_app; lia). cbn [bind].
  rewrite firstn_app, Hlen. change (11 - 12)%nat with 0%nat.
  rewrite firstn_O, app_nil_r.
  unfold index.
  destruct (nth_error (elems id) 11) as [b | ] eqn:Hb.
  - cbn [bind]. rewrite (nth_error_nth _ _ _ Hb).
    destruct (negb (Byte.eqb _ b)); reflexivity.
  - apply nth_error_None in Hb. lia.
Qed.

Lemma Validate_short (id : slice) :
  (cap id < 8)%nat -> Validate id = Panic.
Proof.
  intros H. unfold Validate. now rewrite upto_short.
Qed.

(** The version nibble is the high half of the first byte. *)
Lemma version_nibble (b0 : byte) (rest : list byte) :
  (7 <= length rest)%nat ->
  Z.shiftr (Binary.be_combine (firstn 8 (b0 :: rest))) 60 =
  Z.shiftr (byte.unsigned b0) 4.
Proof.
  intros Hlen. rewrite firstn_cons.
  rewrite (be_combine_app [b0] (firstn 7 rest) : Binary.be_combine (b0 :: firstn 7 rest) = _).
  pose proof (be_combine_bound (firstn 7 rest)) as Hbd.
  rewrite length_firstn in *.
  replace (Nat.min 7 (length rest)) with 7%nat in * by lia.
  change (8 * Z.of_nat 7) with 56 in *.
  assert (H1 : Binary.be_combine [b0] = byte.unsigned b0).
  { unfold Binary.be_combine. cbn [rev app]. apply le_combine_1. }
  rewrite H1, !Z.shiftr_div_pow2 by lia.
  change (2 ^ 60) with (2 ^ 56 * 2 ^ 4).
  rewrite <- Z.div_div by lia.
  rewrite Z.div_add_l by lia.
  rewrite (Z.div_small (Binary.be_combine _)) by lia.
  now rewrite Z.add_0_r.
Qed.

Lemma Validate_accepts_word (l sp : list byte) :
  length l = 12%nat ->
  Z.shiftr (word_of l) 60 = 1 ->
  nth_error l 11 = Some (Crc8.Checksum (firstn 11 l) crcT) ->
  Validate (mkSlice l sp) = Ret None.
Proof.
  intros Hlen Hv Hcrc.
  rewrite Validate_spec by (unfold cap; cbn; rewrite length_app; lia).
  cbn [elems spare len]. cbv zeta.
  rewrite firstn_app, Hlen. change (8 - 12)%nat with 0%nat.
  rewrite firstn_O, app_nil_r.
  unfold word_of in Hv. rewrite Hv. cbn [Z.eqb Pos.eqb negb].
  unfold len. cbn [elems]. rewrite Hlen. cbn [Nat.eqb negb].
  rewrite (nth_error_nth _ _ _ Hcrc).
  rewrite (Byte.byte_dec_lb eq_refl). reflexivity.
Qed.

Lemma nth_error_assemble (w : Z) (wk : list byte) :
  length wk = 3%nat ->
  nth_error (assemble w wk) 11 =
  Some (Crc8.Checksum (firstn 11 (assemble w wk)) crcT).
Proof.
  intros H. unfold assemble. cbv zeta.
  assert (Hl : length (Binary.be_split 8 w ++ wk) = 11%nat)
    by (rewrite length_app, length_be_split, H; reflexivity).
  rewrite nth_error_app2 by (rewrite Hl; lia).
  rewrite firstn_app, Hl, Nat.sub_diag, firstn_O, app_nil_r.
  rewrite firstn_all2 by (rewrite Hl; lia).
  reflexivity.
Qed.

(** Identifiers stamped below [2^52] microseconds are accepted. *)
Lemma Validate_next_id (wid now : Z) (f : flake) :
  well_formed wid f -> usec now < 2 ^ 52 ->
  Validate (of_list (next_id now f)) = Ret None.
Proof.
  intros Hwf Hu. pose proof Hwf as (Hb & _ & Hc & _).
  apply Validate_accepts_word.
  - now apply length_next_id.
  - rewrite (word_of_next_id wid now f Hwf).
    rewrite (emitted_value now f Hc Hu).
    pose proof (next_counter_bound now f Hc) as Hn.
    assert (0 <= Z.lor (counter f) (next_counter now f) < 2 ^ 8)
      by (apply lor_bound; lia).
    pose proof (usec_nonneg now).
    rewrite Z.shiftr_div_pow2 by lia.
    symmetry. apply Z.div_unique with
      (r := usec now * 2 ^ 8 + Z.lor (counter f) (next_counter now f)); lia.
  - apply nth_error_assemble, length_worker_of, Hb.
Qed.

End ValidateFacts.

Section HexRoundTrip.

Lemma fromHexChar_high (v : byte) :
  Hex.fromHexChar (Hex.digit (Z.shiftr (byte.unsigned v) 4)) =
  Some (Z.shiftr (byte.unsigned v) 4).
Proof. destruct v; vm_compute; reflexivity. Qed.

Lemma fromHexChar_low (v : byte) :
  Hex.fromHexChar (Hex.digit (Z.land (byte.unsigned v) 0x0f)) =
  Some (Z.land (byte.unsigned v) 0x0f).
Proof. destruct v; vm_compute; reflexivity. Qed.

Lemma nibbles_join (v : byte) :
  uint8 (Z.lor (Z.shiftl (Z.shiftr (byte.unsigned v) 4) 4)
               (Z.land (byte.unsigned v) 0x0f)) = v.
Proof. destruct v; vm_compute; reflexivity. Qed.

Lemma hex_decode_encode (src : list byte) :
  Hex.decode (Hex.encode src) = Some src.
Proof.
  induction src as [ | v r IH]; [reflexivity | ].
  cbn [Hex.encode Hex.decode].
  now rewrite fromHexChar_high, fromHexChar_low, IH, nibbles_join.
Qed.

Lemma Hex_Decode_Encode (src : list byte) :
  Hex.Decode (make (length src)) (Hex.encode src) = Ret (Some src).
Proof.
  unfold Hex.Decode. rewrite hex_decode_encode.
  unfold make. rewrite repeat_length, Nat.leb_refl.
  rewrite overwrite_all by now rewrite repeat_length.
  reflexivity.
Qed.

End HexRoundTrip.

Section Base64RoundTrip.

(** A property checked on every index of the 64-character alphabet. *)
Lemma below_64 (P : nat -> bool) :
  forallb P (seq 0 64) = true -> forall n, (n < 64)%nat -> P n = true.
Proof.
  intros H n Hn. rewrite forallb_forall in H. apply H, in_seq. lia.
Qed.

Lemma sextet_index (v : Z) : (Z.to_nat (Z.land v 0x3F) < 64)%nat.
Proof.
  change 0x3F with (Z.ones 6). rewrite Z.land_ones by lia.
  pose proof (Z.mod_pos_bound v (2 ^ 6) eq_refl). lia.
Qed.

Lemma decodeMap_enc6 (v : Z) :
  Base64.decodeMap (Base64.enc6 v) = Some (Z.land v 0x3F).
Proof.
  unfold Base64.enc6.
  pose proof (sextet_index v) as Hn.
  assert (Hv : Z.land v 0x3F = Z.of_nat (Z.to_nat (Z.land v 0x3F))).
  { rewrite Z2Nat.id; [reflexivity | ].
    change 0x3F with (Z.ones 6). rewrite Z.land_ones by lia.
    apply Z.mod_pos_bound. lia. }
  rewrite Hv at 2.
  generalize dependent (Z.to_nat (Z.land v 0x3F)). intros n Hn _.
  pose proof (below_64
    (fun n => match Base64.decodeMap (nth n Base64.encodeURL Byte.x00) with
              | Some d => d =? Z.of_nat n
              | None => false
              end) eq_refl n Hn) as H.
  cbv beta in H.
  destruct (Base64.decodeMap _) as [d | ]; [ | discriminate].
  apply Z.eqb_eq in H. now subst.
Qed.

Lemma is_pad_enc6 (v : Z) : Base64.is_pad (Base64.enc6 v) = false.
Proof.
  unfold Base64.enc6.
  pose proof (below_64
    (fun n => negb (Base64.is_pad (nth n Base64.encodeURL Byte.x00)))
    eq_refl _ (sextet_index v)) as H.
  cbv beta in H. now apply negb_true_iff in H.
Qed.

Lemma is_newline_enc6 (v : Z) : Base64.is_newline (Base64.enc6 v) = false.
Proof.
  unfold Base64.enc6.
  pose proof (below_64
    (fun n => negb (Base64.is_newline (nth n Base64.encodeURL Byte.x00)))
    eq_refl _ (sextet_index v)) as H.
  cbv beta in H. now apply negb_true_iff in H.
Qed.

End Base64RoundTrip.


Section Base64Quantum.

Lemma land_63 (v : Z) : Z.land v 0x3F = v mod 2 ^ 6.
Proof. change 0x3F with (Z.ones 6). apply Z.land_ones. lia. Qed.

Lemma sextets_join (val : Z) :
  0 <= val < 2 ^ 24 ->
  Z.lor (Z.lor (Z.lor (Z.shiftl (Z.land (Z.shiftr val 18) 0x3F) 18)
                      (Z.shiftl (Z.land (Z.shiftr val 12) 0x3F) 12))
               (Z.shiftl (Z.land (Z.shiftr val 6) 0x3F) 6))
        (Z.land val 0x3F) = val.
Proof.
  intros Hval.
  rewrite !land_63, !Z.shiftr_div_pow2, !Z.shiftl_mul_pow2 by lia.
  set (d0 := (val / 2 ^ 18) mod 2 ^ 6).
  set (d1 := (val / 2 ^ 12) mod 2 ^ 6).
  set (d2 := (val / 2 ^ 6) mod 2 ^ 6).
  set (d3 := val mod 2 ^ 6).
  assert (H0 : 0 <= d0 < 2 ^ 6) by (apply Z.mod_pos_bound; lia).
  assert (H1 : 0 <= d1 < 2 ^ 6) by (apply Z.mod_pos_bound; lia).
  assert (H2 : 0 <= d2 < 2 ^ 6) by (apply Z.mod_pos_bound; lia).
  assert (H3 : 0 <= d3 < 2 ^ 6) by (apply Z.mod_pos_bound; lia).
  rewrite (lor_high_low d0 (d1 * 2 ^ 12) 18) by lia.
  replace (d0 * 2 ^ 18 + d1 * 2 ^ 12) with ((d0 * 2 ^ 6 + d1) * 2 ^ 12) by lia.
  rewrite (lor_high_low _ (d2 * 2 ^ 6) 12) by lia.
  replace ((d0 * 2 ^ 6 + d1) * 2 ^ 12 + d2 * 2 ^ 6)
    with (((d0 * 2 ^ 6 + d1) * 2 ^ 6 + d2) * 2 ^ 6) by lia.
  rewrite (lor_high_low _ d3 6) by lia.
  subst d0 d1 d2 d3.
  change (2 ^ 24) with 16777216 in Hval.
  change (2 ^ 18) with 262144. change (2 ^ 12) with 4096.
  change (2 ^ 6) with 64.
  Z.div_mod_to_equations. lia.
Qed.

(** Three bytes packed into 24 bits give the same three bytes back. *)
Lemma unpack_bytes (a b c : byte) :
  let val := Z.lor (Z.lor (Z.shiftl (byte.unsigned a) 16)
                          (Z.shiftl (byte.unsigned b) 8))
                   (byte.unsigned c) in
  0 <= val < 2 ^ 24 /\
  uint8 (Z.shiftr val 16) = a /\
  uint8 (Z.shiftr val 8) = b /\
  uint8 val = c.
Proof.
  pose proof (byte.unsigned_range a) as Ha.
  pose proof (byte.unsigned_range b) as Hb.
  pose proof (byte.unsigned_range c) as Hc.
  cbv zeta.
  rewrite !Z.shiftl_mul_pow2 by lia.
  rewrite (lor_high_low (byte.unsigned a) (byte.unsigned b * 2 ^ 8) 16) by lia.
  replace (byte.unsigned a * 2 ^ 16 + byte.unsigned b * 2 ^ 8)
    with ((byte.unsigned a * 2 ^ 8 + byte.unsigned b) * 2 ^ 8) by lia.
  rewrite (lor_high_low _ (byte.unsigned c) 8) by lia.
  rewrite !Z.shiftr_div_pow2 by lia.
  change (2 ^ 24) with 16777216. change (2 ^ 16) with 65536.
  change (2 ^ 8) with 256 in *.
  split; [lia | ].
  repeat split; apply byte.unsigned_inj; unfold uint8;
    rewrite byte.unsigned_of_Z; unfold byte.wrap; change (2 ^ 8) with 256;
    Z.div_mod_to_equations; lia.
Qed.

Lemma base64_decode_encode (k : nat) :
  forall src : list byte,
    length src = (3 * k)%nat ->
    Base64.decode (Base64.encode src) = Some src.
Proof.
  induction k as [ | k IH]; intros src Hlen.
  - destruct src; [reflexivity | discriminate].
  - destruct src as [ | a [ | b [ | c r]]]; cbn [length] in Hlen; try lia.
    cbn [Base64.encode]. cbv zeta.
    destruct (unpack_bytes a b c) as (Hval & Ha & Hb & Hc).
    cbv zeta in Hval, Ha, Hb, Hc.
    set (val := Z.lor (Z.lor (Z.shiftl (byte.unsigned a) 16)
                             (Z.shiftl (byte.unsigned b) 8))
                      (byte.unsigned c)) in *.
    cbn [Base64.decode].
    rewrite !decodeMap_enc6, is_pad_enc6, (IH r) by lia.
    rewrite (sextets_join val Hval), Ha, Hb, Hc.
    reflexivity.
Qed.

Lemma base64_encode_no_newline (k : nat) :
  forall src : list byte,
    length src = (3 * k)%nat ->
    filter (fun c => negb (Base64.is_newline c)) (Base64.encode src) =
    Base64.encode src.
Proof.
  induction k as [ | k IH]; intros src Hlen.
  - destruct src; [reflexivity | discriminate].
  - destruct src as [ | a [ | b [ | c r]]]; cbn [length] in Hlen; try lia.
    cbn [Base64.encode filter]. cbv zeta.
    rewrite !is_newline_enc6. cbn [negb].
    rewrite (IH r) by lia. reflexivity.
Qed.

Lemma Base64_Decode_Encode (k : nat) (src : list byte) :
  length src = (3 * k)%nat ->
  Base64.Decode (make (length src)) (Base64.encode src) = Ret (Some src).
Proof.
  intros Hlen. unfold Base64.Decode.
  rewrite (base64_encode_no_newline k src Hlen).
  rewrite (base64_decode_encode k src Hlen).
  unfold make. rewrite repeat_length, Nat.leb_refl.
  rewrite overwrite_all by (rewrite repeat_length; reflexivity).
  reflexivity.
Qed.

End Base64Quantum.

Section SampleFacts.

Import Samples.

Lemma New_gen : New AAx24 (ReadOk Byte.x01) = Ret gen.
Proof. vm_compute. reflexivity. Qed.

Lemma reachable_gen : reachable AAx24 gen.
Proof. exact (reach_New AAx24 (ReadOk Byte.x01) gen New_gen). Qed.

Lemma well_formed_gen : well_formed AAx24 gen.
Proof. exact (reachable_well_formed AAx24 gen reachable_gen). Qed.

End SampleFacts.

Section WorkerBytes.

Lemma nth_error_worker_of (l : list byte) (i : nat) :
  (8 <= i < 11)%nat -> nth_error l i = nth_error (worker_of l) (i - 8).
Proof.
  intros Hi. unfold worker_of.
  rewrite nth_error_firstn.
  destruct (Nat.ltb_spec (i - 8) 3); [ | lia].
  rewrite nth_error_skipn. f_equal. lia.
Qed.

End WorkerBytes.

(* ================================================================= *)
(** * Worker identity *)

(** C7. For a generator built by [New wid], in every state it reaches,
    bytes 8-10 of the buffer are the low 24 bits of [wid], most significant
    byte first; so are bytes 8-10 of every identifier [Next] returns and of
    the bytes that the text of [NextHex] and [NextB64] decodes to; and
    [tick] leaves bytes 8, 9 and 10 of the buffer as they were. *)
Theorem worker_identity_stable (wid : Z) (f : flake) :
  reachable wid f ->
  worker_of (buf f) = Binary.be_split 3 (wid mod 2 ^ 24) /\
  (forall now id f',
      Next now f = Ret (id, f') ->
      worker_of id = Binary.be_split 3 (wid mod 2 ^ 24)) /\
  (forall now s f',
      NextHex now f = Ret (s, f') ->
      exists id, Hex.decode (list_byte_of_string s) = Some id /\
                 worker_of id = Binary.be_split 3 (wid mod 2 ^ 24)) /\
  (forall now s f',
      NextB64 now f = Ret (s, f') ->
      exists id, Base64.decode (list_byte_of_string s) = Some id /\
                 worker_of id = Binary.be_split 3 (wid mod 2 ^ 24)) /\
  (forall now f',
      tick now f = Ret f' ->
      forall i, (8 <= i < 11)%nat ->
                nth_error (buf f') i = nth_error (buf f) i).
Proof.
  intros Hreach.
  pose proof (reachable_well_formed wid f Hreach) as Hwf.
  pose proof Hwf as (Hb & He & Hc & Hw).
  assert (Hid : forall now, worker_of (next_id now f) =
                            Binary.be_split 3 (wid mod 2 ^ 24)).
  { intros now. unfold next_id.
    rewrite worker_of_assemble by (apply length_worker_of; exact Hb).
    exact Hw. }
  split; [exact Hw | ].
  split.
  { intros now id f'. rewrite Next_spec by exact Hb. intros H.
    assert (id = next_id now f) as -> by congruence. apply Hid. }
  split.
  { intros now s f'. rewrite NextHex_spec by assumption. intros H.
    assert (s = string_of_list_byte (Hex.encode (next_id now f))) as ->
      by congruence.
    exists (next_id now f).
    rewrite list_byte_of_string_of_list_byte, hex_decode_encode.
    split; [reflexivity | apply Hid]. }
  split.
  { intros now s f'. rewrite NextB64_spec by assumption. intros H.
    assert (s = string_of_list_byte (Base64.encode (next_id now f))) as ->
      by congruence.
    exists (next_id now f).
    rewrite list_byte_of_string_of_list_byte.
    rewrite (base64_decode_encode 4) by (apply length_next_id; exact Hb).
    split; [reflexivity | apply Hid]. }
  intros now f'. rewrite tick_ticked by exact Hb. intros H i Hi.
  assert (f' = ticked now f) as -> by congruence.
  cbn [buf ticked].
  rewrite !(nth_error_worker_of _ i Hi).
  unfold next_id.
  rewrite worker_of_assemble by (apply length_worker_of; exact Hb).
  reflexivity.
Qed.

Lemma worker_identity_stable_witness :
  reachable Samples.AAx24 Samples.gen /\
  worker_of (buf Samples.gen) = Binary.be_split 3 (Samples.AAx24 mod 2 ^ 24).
Proof.
  split.
  - exact reachable_gen.
  - exact (proj1 (worker_identity_stable Samples.AAx24 Samples.gen reachable_gen)).
Defined.

(* ================================================================= *)
(** * Construction and totality *)

(** C9. [New] panics when the random read fails; when the read delivers a
    byte it returns a generator whose counter is that byte, a value in
    [0, 255], and on which every sequence of [Next], [NextHex] and [NextB64]
    calls, at any clock readings, returns without a panic. *)
Theorem New_seeds_counter_and_calls_return (wid : Z) :
  New wid ReadErr = Panic /\
  forall (tmp0 : byte) (calls : list (call * Z)),
  exists f outs f',
    New wid (ReadOk tmp0) = Ret f /\
    counter f = byte.unsigned tmp0 /\
    0 <= counter f <= 255 /\
    run calls f = Ret (outs, f').
Proof.
  split; [reflexivity | ].
  intros tmp0 calls.
  pose proof (New_spec wid tmp0) as Hnew.
  pose proof (New_well_formed wid (ReadOk tmp0) _ Hnew) as Hwf.
  destruct (run_returns wid calls _ Hwf) as (outs & f' & Hrun & _).
  eexists. exists outs, f'.
  split; [exact Hnew | ].
  cbn [counter].
  pose proof (byte.unsigned_range tmp0) as Hr.
  change (2 ^ 8) with 256 in Hr.
  repeat split; try lia. exact Hrun.
Qed.

(* ================================================================= *)
(** * The validator *)

Section ErrorTexts.

Lemma errors_distinct (v : Z) (lid : nat) (fcs stored : byte) :
  version_error v <> length_error lid /\
  version_error v <> crc_error fcs stored /\
  length_error lid <> crc_error fcs stored.
Proof.
  unfold version_error, length_error, crc_error.
  repeat split; cbn [append]; discriminate.
Qed.

Lemma N_to_uint_nonnil (n : N) : N.to_uint n <> Decimal.Nil.
Proof.
  destruct n as [ | p]; [discriminate | ].
  apply DecimalPos.Unsigned.to_uint_nonnil.
Qed.

Lemma N_to_hex_uint_nonnil (n : N) : N.to_hex_uint n <> Hexadecimal.Nil.
Proof.
  destruct n as [ | p]; [discriminate | ].
  apply HexadecimalPos.Unsigned.to_uint_nonnil.
Qed.

(** [%v] shows different non-negative integers differently. *)
Lemma Fmt_v_inj (a b : Z) : 0 <= a -> 0 <= b -> Fmt.v a = Fmt.v b -> a = b.
Proof.
  intros Ha Hb H. unfold Fmt.v in H.
  apply (f_equal DecimalString.NilZero.uint_of_string) in H.
  rewrite !DecimalString.NilZero.usu in H by apply N_to_uint_nonnil.
  injection H as H.
  apply DecimalN.Unsigned.to_uint_inj in H.
  apply Z2N.inj in H; assumption.
Qed.

(** [%x] shows different bytes differently. *)
Lemma Fmt_x_inj (a b : byte) : Fmt.x a = Fmt.x b -> a = b.
Proof.
  intros H. unfold Fmt.x in H.
  apply (f_equal HexadecimalString.NilZero.uint_of_string) in H.
  rewrite !HexadecimalString.NilZero.usu in H by apply N_to_hex_uint_nonnil.
  injection H as H.
  apply HexadecimalN.Unsigned.to_uint_inj in H.
  apply byte.to_N_inj, H.
Qed.

(** [%x] of a byte contains no blank. *)
Lemma Fmt_x_no_blank (b : byte) :
  forall c, In c (list_ascii_of_string (Fmt.x b)) -> c <> " "%char.
Proof.
  destruct b; vm_compute; intros c Hc Heq; subst c;
    repeat (destruct Hc as [Hc | Hc]; [discriminate Hc | ]); exact Hc.
Qed.

(** Two texts without blanks, each followed by a blank and a rest, are
    equal only piece by piece. *)
Lemma split_at_blank (s : string) :
  forall s' t t' : string,
    (forall c, In c (list_ascii_of_string s) -> c <> " "%char) ->
    (forall c, In c (list_ascii_of_string s') -> c <> " "%char) ->
    (s ++ String " " t)%string = (s' ++ String " " t')%string ->
    s = s' /\ t = t'.
Proof.
  induction s as [ | a s IH]; intros s' t t' Hs Hs' H;
    destruct s' as [ | a' s']; cbn [append] in H.
  - injection H as H. now split.
  - injection H as Ha _. exfalso.
    apply (Hs' a'); [left; reflexivity | now symmetry].
  - injection H as Ha _. exfalso.
    apply (Hs a); [left; reflexivity | exact Ha].
  - injection H as Ha H.
    destruct (IH s' t t') as [E1 E2].
    + intros c Hc. apply Hs. right. exact Hc.
    + intros c Hc. apply Hs'. right. exact Hc.
    + exact H.
    + subst. now split.
Qed.

End ErrorTexts.

(** C8. [Validate] does not report every failing check: on the empty
    slice the length check fails (the length is 0, not 12), yet no length
    error ["expected length 12, got 0"] comes back, because the call panics
    while slicing [id[:8]], before any check is made. *)
Theorem Validate_wrong_length_goes_unreported :
  len (of_list []) <> 12%nat /\
  Validate (of_list []) = Panic /\
  length_error (len (of_list [])) = "expected length 12, got 0"%string /\
  Validate (of_list []) <> Ret (Some (length_error (len (of_list [])))).
Proof.
  assert (H : Validate (of_list []) = Panic)
    by (apply Validate_short; vm_compute; lia).
  split; [vm_compute; discriminate | ].
  split; [exact H | ].
  split; [vm_compute; reflexivity | ].
  rewrite H. discriminate.
Qed.

(** Once the first eight bytes can be read, [Validate] answers with the
    first check that fails, in the order version, length, checksum: a
    version other than 1 gives ["expected Flake v1, got v"] followed by the
    observed nibble in decimal, whatever the length is; otherwise a length
    other than 12 gives ["expected length 12, got "] followed by the
    observed length; otherwise a checksum mismatch gives ["CRC8 mismatch "],
    the computed byte, [" != "] and the stored byte, both in hexadecimal;
    otherwise the result is [nil]. *)
Theorem Validate_reports_first_failure (id : slice) :
  (8 <= cap id)%nat ->
  let v := Z.shiftr (Binary.be_combine (firstn 8 (elems id ++ spare id))) 60 in
  let fcs := Crc8.Checksum (firstn 11 (elems id)) crcT in
  let stored := nth 11 (elems id) Byte.x00 in
  (v <> 1 ->
   Validate id = Ret (Some ("expected Flake v1, got v" ++ Fmt.v v)%string)) /\
  (v = 1 -> len id <> 12%nat ->
   Validate id =
     Ret (Some ("expected length 12, got " ++ Fmt.v (Z.of_nat (len id)))%string)) /\
  (v = 1 -> len id = 12%nat -> fcs <> stored ->
   Validate id =
     Ret (Some ("CRC8 mismatch " ++ Fmt.x fcs ++ " != " ++ Fmt.x stored)%string)) /\
  (v = 1 -> len id = 12%nat -> fcs = stored -> Validate id = Ret None).
Proof.
  intros Hcap v fcs stored.
  rewrite (Validate_spec id Hcap). fold v fcs stored. cbv zeta.
  split.
  { intros Hv. apply Z.eqb_neq in Hv. rewrite Hv. reflexivity. }
  split.
  { intros Hv Hlen. apply Z.eqb_eq in Hv. apply Nat.eqb_neq in Hlen.
    rewrite Hv, Hlen. reflexivity. }
  split.
  { intros Hv Hlen Hcrc. apply Z.eqb_eq in Hv. apply Nat.eqb_eq in Hlen.
    rewrite Hv, Hlen. cbn [negb].
    destruct (Byte.eqb fcs stored) eqn:E; [ | reflexivity].
    apply Byte.byte_dec_bl in E. contradiction. }
  intros Hv Hlen Hcrc. apply Z.eqb_eq in Hv. apply Nat.eqb_eq in Hlen.
  rewrite Hv, Hlen, Hcrc. cbn [negb].
  now rewrite (Byte.byte_dec_lb eq_refl).
Qed.

Lemma Validate_reports_first_failure_witness :
  (8 <= cap (of_list (repeat Byte.x20 13)))%nat /\
  Validate (of_list (repeat Byte.x20 13)) =
    Ret (Some "expected Flake v1, got v2"%string).
Proof.
  assert (Hcap : (8 <= cap (of_list (repeat Byte.x20 13)))%nat)
    by (vm_compute; lia).
  split; [exact Hcap | ].
  apply (proj1 (Validate_reports_first_failure _ Hcap)).
  vm_compute. discriminate.
Defined.

(** The three error texts are pairwise different, and each determines the
    values it reports: the version, the length, and the computed and
    stored checksum bytes. *)
Theorem error_texts_carry_values :
  (forall (v : Z) (lid : nat) (a b : byte),
      version_error v <> length_error lid /\
      version_error v <> crc_error a b /\
      length_error lid <> crc_error a b) /\
  (forall v v' : Z,
      0 <= v -> 0 <= v' -> version_error v = version_error v' -> v = v') /\
  (forall lid lid' : nat, length_error lid = length_error lid' -> lid = lid') /\
  (forall a b a' b' : byte,
      crc_error a b = crc_error a' b' -> a = a' /\ b = b').
Proof.
  split; [intros v lid a b; apply errors_distinct | ].
  split.
  { intros v v' Hv Hv' H. unfold version_error in H.
    apply String.app_inv_r in H. now apply Fmt_v_inj. }
  split.
  { intros lid lid' H. unfold length_error in H.
    apply String.app_inv_r in H.
    apply Fmt_v_inj in H; lia. }
  intros a b a' b' H. unfold crc_error in H.
  apply String.app_inv_r in H.
  change (" != " ++ Fmt.x b)%string with (String " " ("!= " ++ Fmt.x b)) in H.
  change (" != " ++ Fmt.x b')%string with (String " " ("!= " ++ Fmt.x b')) in H.
  apply split_at_blank in H; try apply Fmt_x_no_blank.
  destruct H as [Ha Hb].
  apply String.app_inv_r in Hb.
  split; apply Fmt_x_inj; assumption.
Qed.

(** C10. Any twelve bytes whose first byte has high nibble 1 and whose last
    byte is the CRC-8 of the first eleven are accepted, whatever the
    timestamp, counter and worker bytes are and whatever spare capacity the
    slice has. *)
Theorem Validate_accepts_any_fields (b0 : byte) (rest sp : list byte) :
  length rest = 11%nat ->
  Z.shiftr (byte.unsigned b0) 4 = 1 ->
  nth_error (b0 :: rest) 11 =
    Some (Crc8.Checksum (firstn 11 (b0 :: rest)) crcT) ->
  Validate (mkSlice (b0 :: rest) sp) = Ret None.
Proof.
  intros Hlen Hv Hcrc.
  apply Validate_accepts_word.
  - cbn [length]. now rewrite Hlen.
  - unfold word_of. rewrite version_nibble by lia. exact Hv.
  - exact Hcrc.
Qed.

Lemma Validate_accepts_any_fields_witness :
  Validate (of_list Samples.valid_id) = Ret None.
Proof.
  apply (Validate_accepts_any_fields Byte.x16 (tl Samples.valid_id) []).
  - reflexivity.
  - vm_compute. reflexivity.
  - vm_compute. reflexivity.
Defined.

(** C2. The length is not the first thing [Validate] looks at: on a
    three-byte slice it panics while slicing [id[:8]] and returns no
    error. *)
Theorem Validate_short_input_panics :
  Validate (of_list [Byte.x10; Byte.x00; Byte.x00]) = Panic.
Proof. apply Validate_short. vm_compute. lia. Qed.

(* ================================================================= *)
(** * Ordering of successive identifiers *)

(** C1, as the code has it. For a generator built by [New], successive
    [Next] calls whose clock readings give strictly increasing microsecond
    counts, all below [2^52], return identifiers whose big-endian integer
    values are strictly increasing, and so are their 64-bit time-words. *)
Theorem Nexts_increasing_while_clock_advances
  (wid : Z) (f f' : flake) (clock : list Z) (ids : list (list byte)) :
  reachable wid f ->
  Forall (fun now => usec now < 2 ^ 52) clock ->
  Sorted (fun a b => usec a < usec b) clock ->
  Nexts clock f = Ret (ids, f') ->
  Sorted Z.lt (map id_value ids) /\ Sorted Z.lt (map word_of ids).
Proof.
  intros Hreach Hall Hsorted Hrun.
  pose proof (reachable_well_formed wid f Hreach) as Hwf.
  destruct (Nexts_in_slots wid clock f Hwf Hall)
    as (ids0 & f0 & Hrun0 & _ & Hslots).
  assert (ids = ids0) as -> by congruence.
  exact (slots_sorted clock ids0 Hslots Hsorted).
Qed.

Lemma Nexts_increasing_while_clock_advances_witness :
  exists ids f',
    Nexts [1000; 2000] Samples.gen = Ret (ids, f') /\
    Sorted Z.lt (map id_value ids).
Proof.
  assert (HF : Forall (fun now => usec now < 2 ^ 52) [1000; 2000])
    by (repeat constructor; vm_compute; reflexivity).
  assert (HS : Sorted (fun a b => usec a < usec b) [1000; 2000])
    by (repeat constructor; vm_compute; reflexivity).
  destruct (Nexts [1000; 2000] Samples.gen) as [[ids f'] | ] eqn:E.
  - exists ids, f'. split; [reflexivity | ].
    exact (proj1 (Nexts_increasing_while_clock_advances
                    Samples.AAx24 Samples.gen f' [1000; 2000] ids
                    reachable_gen HF HS E)).
  - vm_compute in E. discriminate E.
Defined.

(** C1, as stated, fails: when the clock steps back from microsecond 2 to
    microsecond 1 between two [Next] calls, the second identifier is the
    smaller one. *)
Lemma Nexts_decrease_when_clock_steps_back :
  ~ (forall (wid : Z) (r : rand_read) (f f' : flake)
            (clock : list Z) (ids : list (list byte)),
        New wid r = Ret f ->
        Nexts clock f = Ret (ids, f') ->
        Sorted Z.lt (map id_value ids)).
Proof.
  intros H.
  destruct (Nexts_in_slots Samples.AAx24 [2000; 1000] Samples.gen
              well_formed_gen) as (ids & f' & Hrun & _ & Hslots).
  { repeat constructor; vm_compute; reflexivity. }
  specialize (H Samples.AAx24 (ReadOk Byte.x01) Samples.gen f' [2000; 1000] ids
                New_gen Hrun).
  inversion Hslots as [ | ? id1 ? ids1 [Hs1 _] Hrest]; subst.
  inversion Hrest as [ | ? id2 ? ids2 [Hs2 _] Hnil]; subst.
  inversion Hnil; subst.
  cbn [map] in H.
  inversion H as [ | ? ? _ Hhd]; subst.
  inversion Hhd as [ | ? ? Hlt]; subst.
  change (usec 2000) with 2 in Hs1. change (usec 1000) with 1 in Hs2.
  lia.
Qed.

(* ================================================================= *)
(** * The counter bump *)

(** C3. Two [Next] calls at the same clock reading on a generator whose
    counter is 1: the second call bumps the counter to 2, but the low byte
    of the word it writes is [1 | 2 = 3], not 2, and the stored last
    time-word is the candidate with the old counter, not the word
    written. *)
Theorem tick_ors_new_counter_into_old :
  exists id1 id2 f2,
    Nexts [1000; 1000] Samples.gen = Ret ([id1; id2], f2) /\
    counter f2 = 2 /\
    counter_of id2 = 3 /\
    lts f2 = 2 ^ 60 + 1 * 2 ^ 8 + 1 /\
    word_of id2 = 2 ^ 60 + 1 * 2 ^ 8 + 3.
Proof.
  do 3 eexists.
  split; [vm_compute; reflexivity | ].
  repeat split; vm_compute; reflexivity.
Qed.

(* ================================================================= *)
(** * Clock readings of [2^52] microseconds and more *)

(** C4. At a clock reading of [2^53] microseconds the timestamp field of
    the identifier is the reading modulo [2^52], but the version nibble
    is 3: the unmasked bit 53 lands in it. *)
Theorem far_future_clock_changes_version :
  exists id f',
    Next Samples.far_future Samples.gen = Ret (id, f') /\
    usec Samples.far_future = 2 ^ 53 /\
    timestamp_of id = usec Samples.far_future mod 2 ^ 52 /\
    version_of id = 3.
Proof.
  do 2 eexists.
  split; [vm_compute; reflexivity | ].
  repeat split; vm_compute; reflexivity.
Qed.

(** C5. The identifier [Next] returns at a clock reading of [2^53]
    microseconds is rejected by [Validate] with the version error. *)
Theorem far_future_id_fails_Validate :
  exists id f',
    Next Samples.far_future Samples.gen = Ret (id, f') /\
    Validate (of_list id) = Ret (Some (version_error 3)).
Proof.
  do 2 eexists.
  split; [vm_compute; reflexivity | ].
  vm_compute. reflexivity.
Qed.

(** C6. At a clock reading of [2^53] microseconds the texts of [NextHex]
    and [NextB64] decode to the twelve bytes [Next] returns from the same
    state, and [Validate] rejects those bytes with the version error. *)
Theorem far_future_text_fails_Validate :
  exists id f1 hex f2 b64 f3,
    Next Samples.far_future Samples.gen = Ret (id, f1) /\
    NextHex Samples.far_future Samples.gen = Ret (hex, f2) /\
    Hex.Decode (make 12) (list_byte_of_string hex) = Ret (Some id) /\
    NextB64 Samples.far_future Samples.gen = Ret (b64, f3) /\
    Base64.Decode (make 12) (list_byte_of_string b64) = Ret (Some id) /\
    Validate (of_list id) = Ret (Some (version_error 3)).
Proof.
  do 6 eexists.
  split; [vm_compute; reflexivity | ].
  split; [vm_compute; reflexivity | ].
  split; [vm_compute; reflexivity | ].
  split; [vm_compute; reflexivity | ].
  split; [vm_compute; reflexivity | ].
  vm_compute. reflexivity.
Qed.

(* ================================================================= *)
(** * Further properties of the generator and the validator *)

Lemma length_string_of_list_byte (l : list byte) :
  String.length (string_of_list_byte l) = length l.
Proof.
  induction l as [ | b l IH]; [reflexivity | ].
  simpl. f_equal. exact IH.
Qed.

(** Identifiers generated while the clock is below [2^52] microseconds
    (until the year 2112) pass [Validate]. *)
Theorem generated_ids_validate (wid now : Z) (f f' : flake) (id : list byte) :
  reachable wid f ->
  usec now < 2 ^ 52 ->
  Next now f = Ret (id, f') ->
  Validate (of_list id) = Ret None.
Proof.
  intros Hreach Hu Hnext.
  pose proof (reachable_well_formed wid f Hreach) as Hwf.
  rewrite Next_spec in Hnext by apply Hwf.
  assert (id = next_id now f) as -> by congruence.
  exact (Validate_next_id wid now f Hwf Hu).
Qed.

Lemma generated_ids_validate_witness :
  exists id f',
    Next 1000 Samples.gen = Ret (id, f') /\ Validate (of_list id) = Ret None.
Proof.
  destruct (Next 1000 Samples.gen) as [[id f'] | ] eqn:E.
  - exists id, f'. split; [reflexivity | ].
    apply (generated_ids_validate Samples.AAx24 1000 Samples.gen f' id
             reachable_gen); [vm_compute; reflexivity | exact E].
  - vm_compute in E. discriminate E.
Defined.

(** At every clock reading, the text [NextHex] returns has 24 characters
    and [hex.Decode] turns it back into the twelve bytes [Next] returns from
    the same state; both calls leave the same counter and last time-word. *)
Theorem NextHex_round_trip (wid now : Z) (f f' : flake) (s : string) :
  reachable wid f ->
  NextHex now f = Ret (s, f') ->
  String.length s = 24%nat /\
  exists id g,
    Next now f = Ret (id, g) /\
    Hex.Decode (make 12) (list_byte_of_string s) = Ret (Some id) /\
    buf f' = id /\ counter f' = counter g /\ lts f' = lts g.
Proof.
  intros Hreach Hhex.
  pose proof (reachable_well_formed wid f Hreach) as (Hb & He & _).
  rewrite NextHex_spec in Hhex by assumption.
  assert (s = string_of_list_byte (Hex.encode (next_id now f))) as ->
    by congruence.
  assert (f' = set_enc (Hex.encode (next_id now f)) (ticked now f)) as ->
    by congruence.
  pose proof (length_next_id now f Hb) as Hl.
  split.
  - rewrite length_string_of_list_byte, length_hex_encode, Hl.
    reflexivity.
  - exists (next_id now f), (ticked now f).
    rewrite Next_spec by assumption.
    rewrite list_byte_of_string_of_list_byte.
    rewrite <- Hl at 1. rewrite Hex_Decode_Encode.
    repeat split.
Qed.

Lemma NextHex_round_trip_witness :
  exists s f', NextHex 1000 Samples.gen = Ret (s, f') /\ String.length s = 24%nat.
Proof.
  destruct (NextHex 1000 Samples.gen) as [[s f'] | ] eqn:E.
  - exists s, f'. split; [reflexivity | ].
    exact (proj1 (NextHex_round_trip Samples.AAx24 1000 Samples.gen f' s
                    reachable_gen E)).
  - vm_compute in E. discriminate E.
Defined.

(** At every clock reading, the text [NextB64] returns has 16 characters
    and [base64.URLEncoding.Decode] turns it back into the twelve bytes
    [Next] returns from the same state. *)
Theorem NextB64_round_trip (wid now : Z) (f f' : flake) (s : string) :
  reachable wid f ->
  NextB64 now f = Ret (s, f') ->
  String.length s = 16%nat /\
  exists id g,
    Next now f = Ret (id, g) /\
    Base64.Decode (make 12) (list_byte_of_string s) = Ret (Some id) /\
    buf f' = id /\ counter f' = counter g /\ lts f' = lts g.
Proof.
  intros Hreach Hb64.
  pose proof (reachable_well_formed wid f Hreach) as (Hb & He & _).
  rewrite NextB64_spec in Hb64 by assumption.
  assert (s = string_of_list_byte (Base64.encode (next_id now f))) as ->
    by congruence.
  assert (f' = set_enc (Base64.encode (next_id now f) ++ skipn 16 (enc f))
                       (ticked now f)) as -> by congruence.
  pose proof (length_next_id now f Hb) as Hl.
  split.
  - rewrite length_string_of_list_byte.
    now rewrite (length_base64_encode 4).
  - exists (next_id now f), (ticked now f).
    rewrite Next_spec by assumption.
    rewrite list_byte_of_string_of_list_byte.
    rewrite <- Hl at 1. rewrite (Base64_Decode_Encode 4) by exact Hl.
    repeat split.
Qed.

Lemma NextB64_round_trip_witness :
  exists s f', NextB64 1000 Samples.gen = Ret (s, f') /\ String.length s = 16%nat.
Proof.
  destruct (NextB64 1000 Samples.gen) as [[s f'] | ] eqn:E.
  - exists s, f'. split; [reflexivity | ].
    exact (proj1 (NextB64_round_trip Samples.AAx24 1000 Samples.gen f' s
                    reachable_gen E)).
  - vm_compute in E. discriminate E.
Defined.

(** [Validate] panics exactly on the slices whose capacity is below 8;
    on every other slice, of any length, it returns. *)
Theorem Validate_panics_iff (id : slice) :
  Validate id = Panic <-> (cap id < 8)%nat.
Proof.
  split.
  - intros H. destruct (Nat.lt_ge_cases (cap id) 8) as [Hlt | Hge];
      [exact Hlt | ].
    rewrite (Validate_spec id Hge) in H. discriminate H.
  - apply Validate_short.
Qed.

Lemma Validate_nil_facts (id : slice) :
  Validate id = Ret None ->
  len id = 12%nat /\
  (exists b0 rest, elems id = b0 :: rest /\ Z.shiftr (byte.unsigned b0) 4 = 1) /\
  nth_error (elems id) 11 = Some (Crc8.Checksum (firstn 11 (elems id)) crcT).
Proof.
  intros H.
  assert (Hcap : (8 <= cap id)%nat).
  { destruct (Nat.lt_ge_cases (cap id) 8) as [Hlt | Hge]; [ | exact Hge].
    rewrite (Validate_short id Hlt) in H. discriminate H. }
  rewrite (Validate_spec id Hcap) in H. cbv zeta in H.
  destruct (Z.eqb_spec
              (Z.shiftr (Binary.be_combine (firstn 8 (elems id ++ spare id))) 60) 1)
    as [Hv | Hv]; cbn [negb] in H; [ | discriminate H].
  destruct (Nat.eqb_spec (len id) 12) as [Hlen | Hlen]; cbn [negb] in H;
    [ | discriminate H].
  destruct (Byte.eqb (Crc8.Checksum (firstn 11 (elems id)) crcT)
                     (nth 11 (elems id) Byte.x00)) eqn:Hcrc;
    cbn [negb] in H; [ | discriminate H].
  apply Byte.byte_dec_bl in Hcrc.
  unfold len in Hlen.
  split; [exact Hlen | ].
  split.
  - destruct (elems id) as [ | b0 rest] eqn:E; [discriminate Hlen | ].
    exists b0, rest. split; [reflexivity | ].
    rewrite <- Hv. rewrite <- app_comm_cons.
    symmetry. apply version_nibble.
    rewrite length_app. cbn [length] in Hlen. lia.
  - rewrite Hcrc. apply nth_error_nth'. lia.
Qed.

(** What [Validate] accepts is well formed: a [nil] result means the slice
    has length 12, the high nibble of its first byte is 1, and its last byte
    is the CRC-8 of the first eleven. *)
Theorem Validate_nil_inversion (id : slice) :
  Validate id = Ret None ->
  len id = 12%nat /\
  (exists b0 rest, elems id = b0 :: rest /\ Z.shiftr (byte.unsigned b0) 4 = 1) /\
  nth_error (elems id) 11 = Some (Crc8.Checksum (firstn 11 (elems id)) crcT).
Proof. exact (Validate_nil_facts id). Qed.

Lemma Validate_nil_inversion_witness :
  Validate (of_list Samples.valid_id) = Ret None /\
  len (of_list Samples.valid_id) = 12%nat.
Proof.
  assert (H : Validate (of_list Samples.valid_id) = Ret None)
    by (vm_compute; reflexivity).
  split; [exact H | ].
  exact (proj1 (Validate_nil_inversion (of_list Samples.valid_id) H)).
Defined.

(** On a slice of length 12 the answer of [Validate] does not depend on
    what lies beyond the length in the backing array. *)
Theorem Validate_ignores_spare (l sp : list byte) :
  length l = 12%nat ->
  Validate (mkSlice l sp) = Validate (of_list l).
Proof.
  intros Hlen.
  rewrite !Validate_spec
    by (unfold cap, of_list; cbn [elems spare]; rewrite length_app; lia).
  unfold of_list. cbn [elems spare].
  rewrite !firstn_app, Hlen. change (8 - 12)%nat with 0%nat.
  rewrite !firstn_O. reflexivity.
Qed.

Lemma Validate_ignores_spare_witness :
  Validate (mkSlice Samples.valid_id [Byte.xff]) =
  Validate (of_list Samples.valid_id).
Proof.
  apply (Validate_ignores_spare Samples.valid_id [Byte.xff]). reflexivity.
Defined.

Section Fields.

Lemma shiftl_usec_split (now : Z) :
  uint64 (Z.shiftl (usec now) 8) =
  ((usec now / 2 ^ 52) mod 2 ^ 4) * 2 ^ 60 + (usec now mod 2 ^ 52) * 2 ^ 8.
Proof.
  pose proof (usec_nonneg now) as Hu.
  rewrite Z.shiftl_mul_pow2 by lia. unfold uint64.
  change (2 ^ 64) with (2 ^ 56 * 2 ^ 8).
  rewrite Z.mul_mod_distr_r by lia.
  change (2 ^ 60) with 1152921504606846976.
  change (2 ^ 56) with 72057594037927936.
  change (2 ^ 52) with 4503599627370496.
  change (2 ^ 8) with 256. change (2 ^ 4) with 16.
  Z.div_mod_to_equations. lia.
Qed.

Lemma lor_v1 (hi lo : Z) :
  0 <= hi < 2 ^ 4 -> 0 <= lo < 2 ^ 52 ->
  Z.lor v1 (hi * 2 ^ 60 + lo * 2 ^ 8) = Z.lor 1 hi * 2 ^ 60 + lo * 2 ^ 8.
Proof.
  intros Hhi Hlo.
  rewrite <- (lor_high_low hi (lo * 2 ^ 8) 60) by lia.
  change v1 with (Z.shiftl 1 60).
  rewrite Z.lor_assoc.
  rewrite <- (Z.shiftl_mul_pow2 hi 60) by lia.
  rewrite <- Z.shiftl_lor.
  rewrite Z.shiftl_mul_pow2 by lia.
  apply lor_high_low; lia.
Qed.

Lemma lor_1_pos (hi : Z) : 0 <= hi < 2 ^ 4 -> 1 <= Z.lor 1 hi < 2 ^ 4.
Proof.
  intros Hhi.
  assert (H : 0 <= Z.lor 1 hi < 2 ^ 4) by (apply lor_bound; lia).
  assert (Z.lor 1 hi <> 0) by (rewrite Z.lor_eq_0_iff; lia).
  lia.
Qed.

(** The word written by [tick], field by field, at any clock reading. *)
Lemma emitted_fields (now : Z) (f : flake) :
  0 <= counter f < 256 ->
  emitted now f =
  Z.lor 1 ((usec now / 2 ^ 52) mod 2 ^ 4) * 2 ^ 60
  + (usec now mod 2 ^ 52) * 2 ^ 8
  + Z.lor (counter f) (next_counter now f).
Proof.
  intros Hc.
  pose proof (next_counter_bound now f Hc) as Hn.
  assert (Hcc : 0 <= Z.lor (counter f) (next_counter now f) < 2 ^ 8)
    by (apply lor_bound; lia).
  assert (Hhi : 0 <= (usec now / 2 ^ 52) mod 2 ^ 4 < 2 ^ 4)
    by (apply Z.mod_pos_bound; lia).
  assert (Hlo : 0 <= usec now mod 2 ^ 52 < 2 ^ 52)
    by (apply Z.mod_pos_bound; lia).
  set (hi := (usec now / 2 ^ 52) mod 2 ^ 4) in *.
  set (lo := usec now mod 2 ^ 52) in *.
  assert (H1 : 0 <= Z.lor 1 hi < 2 ^ 4) by (apply lor_bound; lia).
  rewrite emitted_lor, shiftl_usec_split. fold hi lo.
  rewrite (lor_v1 hi lo Hhi Hlo).
  replace (Z.lor 1 hi * 2 ^ 60 + lo * 2 ^ 8)
    with ((Z.lor 1 hi * 2 ^ 52 + lo) * 2 ^ 8) by lia.
  rewrite lor_high_low by lia. lia.
Qed.

End Fields.

Section FieldsOfIds.

Lemma fields_of_next_id (wid now : Z) (f : flake) :
  well_formed wid f ->
  timestamp_of (next_id now f) = usec now mod 2 ^ 52 /\
  counter_of (next_id now f) = Z.lor (counter f) (next_counter now f) /\
  version_of (next_id now f) = Z.lor 1 ((usec now / 2 ^ 52) mod 2 ^ 4).
Proof.
  intros Hwf. pose proof Hwf as (Hb & _ & Hc & _).
  unfold timestamp_of, counter_of, version_of.
  rewrite (word_of_next_id wid now f Hwf), (emitted_fields now f Hc).
  pose proof (next_counter_bound now f Hc) as Hn.
  assert (Hcc : 0 <= Z.lor (counter f) (next_counter now f) < 2 ^ 8)
    by (apply lor_bound; lia).
  assert (Hhi : 0 <= (usec now / 2 ^ 52) mod 2 ^ 4 < 2 ^ 4)
    by (apply Z.mod_pos_bound; lia).
  assert (Hlo : 0 <= usec now mod 2 ^ 52 < 2 ^ 52)
    by (apply Z.mod_pos_bound; lia).
  set (hi := (usec now / 2 ^ 52) mod 2 ^ 4) in *.
  set (lo := usec now mod 2 ^ 52) in *.
  set (cc := Z.lor (counter f) (next_counter now f)) in *.
  pose proof (lor_1_pos hi Hhi) as H1.
  set (v := Z.lor 1 hi) in *.
  change 0xff with (Z.ones 8).
  rewrite !Z.land_ones, !Z.shiftr_div_pow2 by lia.
  change (2 ^ 60) with 1152921504606846976 in *.
  change (2 ^ 52) with 4503599627370496 in *.
  change (2 ^ 8) with 256 in *. change (2 ^ 4) with 16 in *.
  repeat split; Z.div_mod_to_equations; lia.
Qed.

Lemma next_counter_cases (now : Z) (f : flake) :
  0 <= counter f < 256 ->
  next_counter now f = counter f \/
  next_counter now f = (counter f + 1) mod 256.
Proof.
  intros Hc. unfold next_counter.
  destruct (candidate now f <=? lts f); [right | left; reflexivity].
  change 0xff with (Z.ones 8). rewrite Z.land_ones by lia.
  unfold uint64.
  rewrite (Z.mod_small (counter f + 1) (2 ^ 64)) by lia. reflexivity.
Qed.

Lemma worker_of_next_id (wid now : Z) (f : flake) :
  well_formed wid f ->
  worker_of (next_id now f) = Binary.be_split 3 (wid mod 2 ^ 24).
Proof.
  intros (Hb & _ & _ & Hw). unfold next_id.
  rewrite worker_of_assemble by (apply length_worker_of; exact Hb).
  exact Hw.
Qed.

End FieldsOfIds.

(** The fields of every identifier [Next] returns, at any clock reading:
    the timestamp field is the microsecond count modulo [2^52]; the low byte
    is the bitwise OR of the counter before and after the call; the version
    nibble is 1 ORed with bits 52-55 of the microsecond count, hence always
    odd; and the counter either stays or goes up by one modulo 256. *)
Theorem Next_fields (wid now : Z) (f f' : flake) (id : list byte) :
  reachable wid f ->
  Next now f = Ret (id, f') ->
  timestamp_of id = usec now mod 2 ^ 52 /\
  counter_of id = Z.lor (counter f) (counter f') /\
  version_of id = Z.lor 1 ((usec now / 2 ^ 52) mod 2 ^ 4) /\
  (counter f' = counter f \/ counter f' = (counter f + 1) mod 256).
Proof.
  intros Hreach Hnext.
  pose proof (reachable_well_formed wid f Hreach) as Hwf.
  pose proof Hwf as (Hb & _ & Hc & _).
  rewrite Next_spec in Hnext by exact Hb.
  assert (id = next_id now f) as -> by congruence.
  assert (f' = ticked now f) as -> by congruence.
  cbn [counter ticked].
  destruct (fields_of_next_id wid now f Hwf) as (Ht & Hcnt & Hv).
  repeat split; try assumption.
  apply next_counter_cases; exact Hc.
Qed.

Lemma Next_fields_witness :
  exists id f',
    Next Samples.far_future Samples.gen = Ret (id, f') /\
    timestamp_of id = usec Samples.far_future mod 2 ^ 52.
Proof.
  destruct (Next Samples.far_future Samples.gen) as [[id f'] | ] eqn:E.
  - exists id, f'. split; [reflexivity | ].
    exact (proj1 (Next_fields Samples.AAx24 Samples.far_future Samples.gen
                    f' id reachable_gen E)).
  - vm_compute in E. discriminate E.
Defined.

Section FirstCall.

Lemma candidate_above_v1 (now : Z) (f : flake) :
  0 <= counter f < 256 -> 2 ^ 60 <= candidate now f.
Proof.
  intros Hc.
  assert (Hhi : 0 <= (usec now / 2 ^ 52) mod 2 ^ 4 < 2 ^ 4)
    by (apply Z.mod_pos_bound; lia).
  assert (Hlo : 0 <= usec now mod 2 ^ 52 < 2 ^ 52)
    by (apply Z.mod_pos_bound; lia).
  unfold candidate.
  rewrite shiftl_usec_split, (lor_v1 _ _ Hhi Hlo).
  pose proof (lor_1_pos _ Hhi) as H1.
  set (v := Z.lor 1 _) in *. set (lo := usec now mod 2 ^ 52) in *.
  replace (v * 2 ^ 60 + lo * 2 ^ 8) with ((v * 2 ^ 52 + lo) * 2 ^ 8) by lia.
  rewrite lor_high_low by lia. lia.
Qed.

End FirstCall.

(** The first identifier of a fresh generator carries the byte read from
    the random source as its counter, at every clock reading, and the
    counter is still that byte after the call. *)
Theorem first_id_carries_seed
  (wid now : Z) (tmp0 : byte) (f f' : flake) (id : list byte) :
  New wid (ReadOk tmp0) = Ret f ->
  Next now f = Ret (id, f') ->
  counter_of id = byte.unsigned tmp0 /\ counter f' = byte.unsigned tmp0.
Proof.
  intros Hnew Hnext.
  pose proof (New_well_formed wid _ f Hnew) as Hwf.
  pose proof Hwf as (Hb & _ & Hc & _).
  rewrite New_spec in Hnew.
  match type of Hnew with Ret ?g = _ => assert (Hf : f = g) by congruence end.
  assert (Hcnt : counter f = byte.unsigned tmp0) by (rewrite Hf; reflexivity).
  assert (Hlts : lts f = 0) by (rewrite Hf; reflexivity).
  clear Hf.
  rewrite Next_spec in Hnext by exact Hb.
  assert (id = next_id now f) as -> by congruence.
  assert (f' = ticked now f) as -> by congruence.
  cbn [counter ticked].
  assert (Hn : next_counter now f = counter f).
  { unfold next_counter. rewrite Hlts.
    pose proof (candidate_above_v1 now f Hc).
    destruct (Z.leb_spec (candidate now f) 0); [lia | reflexivity]. }
  destruct (fields_of_next_id wid now f Hwf) as (_ & Hlow & _).
  rewrite Hlow, Hn, Z.lor_diag. split; exact Hcnt.
Qed.

Lemma first_id_carries_seed_witness :
  exists id f',
    Next 1000 Samples.gen = Ret (id, f') /\ counter_of id = 1.
Proof.
  destruct (Next 1000 Samples.gen) as [[id f'] | ] eqn:E.
  - exists id, f'. split; [reflexivity | ].
    exact (proj1 (first_id_carries_seed Samples.AAx24 1000 Byte.x01
                    Samples.gen f' id New_gen E)).
  - vm_compute in E. discriminate E.
Defined.

(** Generators whose worker identities differ in their low 24 bits never
    return the same identifier, whatever their states and clocks. *)
Theorem distinct_workers_never_collide
  (wid1 wid2 now1 now2 : Z) (f1 f1' f2 f2' : flake) (id1 id2 : list byte) :
  reachable wid1 f1 ->
  reachable wid2 f2 ->
  wid1 mod 2 ^ 24 <> wid2 mod 2 ^ 24 ->
  Next now1 f1 = Ret (id1, f1') ->
  Next now2 f2 = Ret (id2, f2') ->
  id1 <> id2.
Proof.
  intros Hr1 Hr2 Hneq H1 H2 Heq.
  pose proof (reachable_well_formed wid1 f1 Hr1) as Hwf1.
  pose proof (reachable_well_formed wid2 f2 Hr2) as Hwf2.
  rewrite Next_spec in H1 by apply Hwf1.
  rewrite Next_spec in H2 by apply Hwf2.
  assert (id1 = next_id now1 f1) as E1 by congruence.
  assert (id2 = next_id now2 f2) as E2 by congruence.
  pose proof (worker_of_next_id wid1 now1 f1 Hwf1) as W1.
  pose proof (worker_of_next_id wid2 now2 f2 Hwf2) as W2.
  rewrite <- E1 in W1. rewrite <- E2, <- Heq, W1 in W2.
  apply (f_equal Binary.be_combine) in W2.
  rewrite !be_combine_split in W2.
  change (Z.of_nat 3 * 8) with 24 in W2.
  rewrite !Z.mod_mod in W2 by lia.
  contradiction.
Qed.

Lemma distinct_workers_never_collide_witness :
  exists id1 id2 f1' f2',
    Next 1000 Samples.gen = Ret (id1, f1') /\
    Next 1000 (mkFlake (repeat Byte.x00 12) (make 24) 1 0) = Ret (id2, f2') /\
    id1 <> id2.
Proof.
  destruct (Next 1000 Samples.gen) as [[id1 f1'] | ] eqn:E1;
    [ | vm_compute in E1; discriminate E1].
  destruct (Next 1000 (mkFlake (repeat Byte.x00 12) (make 24) 1 0))
    as [[id2 f2'] | ] eqn:E2; [ | vm_compute in E2; discriminate E2].
  exists id1, id2, f1', f2'.
  split; [reflexivity | ]. split; [reflexivity | ].
  apply (distinct_workers_never_collide Samples.AAx24 0 1000 1000
           Samples.gen f1' (mkFlake (repeat Byte.x00 12) (make 24) 1 0) f2').
  - exact reachable_gen.
  - apply (reach_New 0 (ReadOk Byte.x01)). vm_compute. reflexivity.
  - vm_compute. discriminate.
  - exact E1.
  - exact E2.
Defined.

(** [New] uses the low 24 bits of the worker identity only: identities that
    agree modulo [2^24] give the same generator. *)
Theorem New_truncates_wid (wid k : Z) (r : rand_read) :
  New (wid + k * 2 ^ 24) r = New wid r.
Proof.
  destruct r as [tmp0 | ]; [ | reflexivity].
  rewrite !New_spec.
  pose proof (be_split_worker (wid + k * 2 ^ 24)) as H1.
  pose proof (be_split_worker wid) as H2.
  rewrite Z_mod_plus_full, H2 in H1.
  congruence.
Qed.

Section LastTimeWord.

Lemma step_lts (wid : Z) (c : call) (now : Z) (f f' : flake) (out : output) :
  well_formed wid f -> step c now f = Ret (out, f') ->
  lts f' = candidate now f.
Proof.
  intros (Hb & He & _).
  destruct c; unfold step.
  - rewrite Next_spec by assumption. cbn [bind fst snd]. intros H.
    assert (f' = ticked now f) as -> by congruence. reflexivity.
  - rewrite NextHex_spec by assumption. cbn [bind fst snd]. intros H.
    assert (f' = set_enc (Hex.encode (next_id now f)) (ticked now f)) as ->
      by congruence.
    reflexivity.
  - rewrite NextB64_spec by assumption. cbn [bind fst snd]. intros H.
    assert (f' = set_enc (Base64.encode (next_id now f) ++ skipn 16 (enc f))
                         (ticked now f)) as -> by congruence.
    reflexivity.
Qed.

End LastTimeWord.

(** In every state a generator reaches, the identifier buffer has 12 bytes,
    the text buffer 24, the counter fits a byte and the last time-word fits
    64 bits. *)
Theorem generator_invariant (wid : Z) (f : flake) :
  reachable wid f ->
  length (buf f) = 12%nat /\
  length (enc f) = 24%nat /\
  0 <= counter f < 256 /\
  0 <= lts f < 2 ^ 64.
Proof.
  intros Hreach.
  pose proof (reachable_well_formed wid f Hreach) as (Hb & He & Hc & _).
  repeat split; try assumption; try lia.
  - destruct Hreach as [r f Hnew | c now f out f' Hprev Hstep].
    + destruct r as [tmp0 | ]; [ | discriminate Hnew].
      rewrite New_spec in Hnew.
      match type of Hnew with Ret ?g = _ => assert (Hf : f = g) by congruence end.
      rewrite Hf. cbn [lts]. lia.
    + pose proof (reachable_well_formed wid f Hprev) as Hwf.
      rewrite (step_lts wid c now f f' out Hwf Hstep).
      apply candidate_bound, Hwf.
  - destruct Hreach as [r f Hnew | c now f out f' Hprev Hstep].
    + destruct r as [tmp0 | ]; [ | discriminate Hnew].
      rewrite New_spec in Hnew.
      match type of Hnew with Ret ?g = _ => assert (Hf : f = g) by congruence end.
      rewrite Hf. cbn [lts]. lia.
    + pose proof (reachable_well_formed wid f Hprev) as Hwf.
      rewrite (step_lts wid c now f f' out Hwf Hstep).
      apply candidate_bound, Hwf.
Qed.

Lemma generator_invariant_witness :
  reachable Samples.AAx24 Samples.gen /\ length (buf Samples.gen) = 12%nat.
Proof.
  split; [exact reachable_gen | ].
  exact (proj1 (generator_invariant Samples.AAx24 Samples.gen reachable_gen)).
Defined.

(** What a call returns does not depend on what the text buffer holds: with
    any other 24 bytes in [enc], each of the three methods returns the same
    result and leaves the same identifier buffer, counter and last
    time-word. *)
Theorem results_ignore_scratch
  (c : call) (now : Z) (f f' : flake) (e : list byte) (out : output) :
  length (buf f) = 12%nat ->
  length (enc f) = 24%nat ->
  length e = 24%nat ->
  step c now f = Ret (out, f') ->
  exists g,
    step c now (set_enc e f) = Ret (out, g) /\
    buf g = buf f' /\ counter g = counter f' /\ lts g = lts f'.
Proof.
  intros Hb He Hlen.
  assert (Hb' : length (buf (set_enc e f)) = 12%nat) by exact Hb.
  assert (He' : length (enc (set_enc e f)) = 24%nat) by exact Hlen.
  destruct c; unfold step.
  - rewrite !Next_spec by assumption. cbn [bind fst snd]. intros H.
    assert (out = Bytes (next_id now f)) as -> by congruence.
    assert (f' = ticked now f) as -> by congruence.
    eexists. split; [reflexivity | ]. repeat split.
  - rewrite !NextHex_spec by assumption. cbn [bind fst snd]. intros H.
    assert (out = Text (string_of_list_byte (Hex.encode (next_id now f))))
      as -> by congruence.
    assert (f' = set_enc (Hex.encode (next_id now f)) (ticked now f)) as ->
      by congruence.
    eexists. split; [reflexivity | ]. repeat split.
  - rewrite !NextB64_spec by assumption. cbn [bind fst snd]. intros H.
    assert (out = Text (string_of_list_byte (Base64.encode (next_id now f))))
      as -> by congruence.
    assert (f' = set_enc (Base64.encode (next_id now f) ++ skipn 16 (enc f))
                         (ticked now f)) as -> by congruence.
    eexists. split; [reflexivity | ]. repeat split.
Qed.

Lemma results_ignore_scratch_witness :
  exists out f' g,
    step CallNextB64 1000 Samples.gen = Ret (out, f') /\
    step CallNextB64 1000 (set_enc (repeat Byte.xff 24) Samples.gen) =
      Ret (out, g) /\
    buf g = buf f' /\ counter g = counter f' /\ lts g = lts f'.
Proof.
  destruct (step CallNextB64 1000 Samples.gen) as [[out f'] | ] eqn:E;
    [ | vm_compute in E; discriminate E].
  destruct (results_ignore_scratch CallNextB64 1000 Samples.gen f'
              (repeat Byte.xff 24) out eq_refl eq_refl eq_refl E)
    as (g & Hg).
  exists out, f', g. split; [reflexivity | exact Hg].
Defined.

Section Alphabets.

Lemma hex_digit_in_table (v : byte) :
  In (Hex.digit (Z.shiftr (byte.unsigned v) 4)) Hex.hextable /\
  In (Hex.digit (Z.land (byte.unsigned v) 0x0f)) Hex.hextable.
Proof.
  pose proof (byte.unsigned_range v) as Hv.
  change (2 ^ 8) with 256 in Hv.
  unfold Hex.digit. split; apply nth_In.
  - change (length Hex.hextable) with 16%nat.
    rewrite Z.shiftr_div_pow2 by lia. change (2 ^ 4) with 16.
    assert (0 <= byte.unsigned v / 16 < 16)
      by (Z.div_mod_to_equations; lia).
    lia.
  - change (length Hex.hextable) with 16%nat.
    change 0x0f with (Z.ones 4). rewrite Z.land_ones by lia.
    pose proof (Z.mod_pos_bound (byte.unsigned v) (2 ^ 4) eq_refl).
    change (2 ^ 4) with 16 in *. lia.
Qed.

Lemma hex_encode_alphabet (src : list byte) :
  Forall (fun c => In c Hex.hextable) (Hex.encode src).
Proof.
  induction src as [ | v r IH]; cbn [Hex.encode]; [constructor | ].
  destruct (hex_digit_in_table v) as [Hh Hl].
  constructor; [exact Hh | ]. constructor; [exact Hl | exact IH].
Qed.

Lemma enc6_in_alphabet (v : Z) : In (Base64.enc6 v) Base64.encodeURL.
Proof.
  unfold Base64.enc6. apply nth_In.
  change (length Base64.encodeURL) with 64%nat. apply sextet_index.
Qed.

Lemma base64_encode_alphabet (k : nat) :
  forall src : list byte,
    length src = (3 * k)%nat ->
    Forall (fun c => In c Base64.encodeURL) (Base64.encode src).
Proof.
  induction k as [ | k IH]; intros src Hlen.
  - destruct src; [constructor | discriminate].
  - destruct src as [ | a [ | b [ | c r]]]; cbn [length] in Hlen; try lia.
    cbn [Base64.encode]. cbv zeta.
    repeat (constructor; [apply enc6_in_alphabet | ]).
    apply IH. lia.
Qed.

End Alphabets.

(** The text of [NextHex] consists of the characters [0-9a-f] only, and the
    text of [NextB64] of characters of the URL-safe alphabet
    [A-Za-z0-9-_] only: it never contains the padding character. *)
Theorem text_alphabets (wid now : Z) (f : flake) :
  reachable wid f ->
  (forall s f',
      NextHex now f = Ret (s, f') ->
      Forall (fun c => In c Hex.hextable) (list_byte_of_string s)) /\
  (forall s f',
      NextB64 now f = Ret (s, f') ->
      Forall (fun c => In c Base64.encodeURL) (list_byte_of_string s) /\
      ~ In Base64.StdPadding (list_byte_of_string s)).
Proof.
  intros Hreach.
  pose proof (reachable_well_formed wid f Hreach) as (Hb & He & _).
  split.
  - intros s f'. rewrite NextHex_spec by assumption. intros H.
    assert (s = string_of_list_byte (Hex.encode (next_id now f))) as ->
      by congruence.
    rewrite list_byte_of_string_of_list_byte. apply hex_encode_alphabet.
  - intros s f'. rewrite NextB64_spec by assumption. intros H.
    assert (s = string_of_list_byte (Base64.encode (next_id now f))) as ->
      by congruence.
    rewrite list_byte_of_string_of_list_byte.
    pose proof (base64_encode_alphabet 4 (next_id now f)
                  (length_next_id now f Hb)) as Hall.
    split; [exact Hall | ].
    intros Hin. rewrite Forall_forall in Hall.
    specialize (Hall _ Hin).
    revert Hall. vm_compute. intuition discriminate.
Qed.

Lemma text_alphabets_witness :
  exists s f',
    NextHex 1000 Samples.gen = Ret (s, f') /\
    Forall (fun c => In c Hex.hextable) (list_byte_of_string s).
Proof.
  destruct (NextHex 1000 Samples.gen) as [[s f'] | ] eqn:E.
  - exists s, f'. split; [reflexivity | ].
    exact (proj1 (text_alphabets Samples.AAx24 1000 Samples.gen reachable_gen)
                 s f' E).
  - vm_compute in E. discriminate E.
Defined.

Section ChecksumFacts.

Lemma lxor_bound (a b n : Z) :
  0 <= a < 2 ^ n -> 0 <= b < 2 ^ n -> 0 <= Z.lxor a b < 2 ^ n.
Proof.
  intros Ha Hb.
  assert (Hn : 0 <= n).
  { destruct (Z_lt_le_dec n 0) as [Hneg | ]; [ | assumption].
    rewrite (Z.pow_neg_r 2 n Hneg) in Ha. lia. }
  assert (H0 : 0 <= Z.lxor a b) by (apply Z.lxor_nonneg; lia).
  split; [exact H0 | ].
  destruct (Z.eq_dec (Z.lxor a b) 0) as [-> | Hnz]; [lia | ].
  apply Z.log2_lt_pow2; [lia | ].
  pose proof (Z.log2_lxor a b (proj1 Ha) (proj1 Hb)) as Hl.
  destruct (Z.eq_dec a 0) as [-> | Ha0].
  { rewrite Z.lxor_0_l in *. apply Z.log2_lt_pow2; lia. }
  destruct (Z.eq_dec b 0) as [-> | Hb0].
  { rewrite Z.lxor_0_r in *. apply Z.log2_lt_pow2; lia. }
  assert (Z.log2 a < n) by (apply Z.log2_lt_pow2; lia).
  assert (Z.log2 b < n) by (apply Z.log2_lt_pow2; lia).
  lia.
Qed.

Lemma unsigned_xor (a b : byte) :
  byte.unsigned (byte.xor a b) = Z.lxor (byte.unsigned a) (byte.unsigned b).
Proof.
  unfold byte.xor. rewrite byte.unsigned_of_Z. unfold byte.wrap.
  apply Z.mod_small, lxor_bound; apply byte.unsigned_range.
Qed.

Lemma xor_inj_r (a b b' : byte) : byte.xor a b = byte.xor a b' -> b = b'.
Proof.
  intros H. apply (f_equal byte.unsigned) in H.
  rewrite !unsigned_xor in H.
  apply (f_equal (Z.lxor (byte.unsigned a))) in H.
  rewrite <- !Z.lxor_assoc, Z.lxor_nilpotent, !Z.lxor_0_l in H.
  now apply byte.unsigned_inj.
Qed.

Lemma xor_inj_l (a a' b : byte) : byte.xor a b = byte.xor a' b -> a = a'.
Proof.
  intros H. apply (f_equal byte.unsigned) in H.
  rewrite !unsigned_xor in H.
  apply (f_equal (fun z => Z.lxor z (byte.unsigned b))) in H.
  cbv beta in H.
  rewrite !Z.lxor_assoc, Z.lxor_nilpotent, !Z.lxor_0_r in H.
  now apply byte.unsigned_inj.
Qed.

(** The table of [crc8.CRC8] is a permutation of the 256 byte values. *)
Lemma crcT_NoDup : NoDup (Crc8.data crcT) /\ length (Crc8.data crcT) = 256%nat.
Proof.
  split; [ | vm_compute; reflexivity].
  assert (H : nodup Byte.byte_eq_dec (Crc8.data crcT) = Crc8.data crcT)
    by (vm_compute; reflexivity).
  rewrite <- H. apply NoDup_nodup.
Qed.

Lemma lookup_inj (a b : byte) :
  Crc8.lookup crcT a = Crc8.lookup crcT b -> a = b.
Proof.
  unfold Crc8.lookup. intros H.
  destruct crcT_NoDup as [Hnd Hlen].
  pose proof (byte.unsigned_range a) as Ha.
  pose proof (byte.unsigned_range b) as Hb.
  change (2 ^ 8) with 256 in *.
  apply (proj1 (NoDup_nth _ Byte.x00) Hnd) in H; [ | lia | lia].
  apply byte.unsigned_inj. lia.
Qed.

Lemma Update_cons (crc d : byte) (r : list byte) :
  Crc8.Update crc (d :: r) crcT =
  Crc8.Update (Crc8.lookup crcT (byte.xor crc d)) r crcT.
Proof. reflexivity. Qed.

Lemma Update_app (crc : byte) (l r : list byte) :
  Crc8.Update crc (l ++ r) crcT = Crc8.Update (Crc8.Update crc l crcT) r crcT.
Proof. unfold Crc8.Update. apply fold_left_app. Qed.

Lemma Update_inj (l : list byte) :
  forall c c', Crc8.Update c l crcT = Crc8.Update c' l crcT -> c = c'.
Proof.
  induction l as [ | d r IH]; intros c c' H; [exact H | ].
  rewrite !Update_cons in H.
  apply IH, lookup_inj, xor_inj_l in H. exact H.
Qed.

(** Changing one byte of the input changes the checksum. *)
Lemma Checksum_one_byte (pre post : list byte) (d d' : byte) :
  d <> d' ->
  Crc8.Checksum (pre ++ d :: post) crcT <>
  Crc8.Checksum (pre ++ d' :: post) crcT.
Proof.
  intros Hneq H. unfold Crc8.Checksum, Crc8.Complete in H.
  change (Crc8.RefOut (Crc8.params crcT)) with false in H. cbv iota in H.
  apply xor_inj_l in H.
  rewrite !Update_app, !Update_cons in H.
  apply Update_inj, lookup_inj, xor_inj_r in H.
  contradiction.
Qed.

End ChecksumFacts.

(** Corruption of one byte is always detected: if [Validate] accepts an
    identifier and any one of its first eleven bytes is replaced by a
    different value, [Validate] returns an error on the result, the version
    error when the change touches the version nibble and the CRC error,
    with the newly computed and the stored checksum, otherwise. *)
Theorem one_byte_change_rejected (pre post : list byte) (d d' c : byte) :
  Validate (of_list (pre ++ d :: post ++ [c])) = Ret None ->
  d <> d' ->
  let changed := pre ++ d' :: post ++ [c] in
  (version_of changed <> 1 /\
   Validate (of_list changed) = Ret (Some (version_error (version_of changed))))
  \/
  (version_of changed = 1 /\
   Crc8.Checksum (pre ++ d' :: post) crcT <> c /\
   Validate (of_list changed) =
     Ret (Some (crc_error (Crc8.Checksum (pre ++ d' :: post) crcT) c))).
Proof.
  intros Hok Hneq changed.
  assert (E : pre ++ d :: post ++ [c] = (pre ++ d :: post) ++ [c])
    by (rewrite <- app_assoc; reflexivity).
  rewrite E in Hok.
  destruct (Validate_nil_facts _ Hok) as (Hlen & _ & Hcrc).
  unfold len, of_list in Hlen, Hcrc. cbn [elems] in Hlen, Hcrc.
  assert (Hl11 : length (pre ++ d :: post) = 11%nat).
  { rewrite length_app in Hlen. cbn [length] in Hlen. lia. }
  assert (Hl11' : length (pre ++ d' :: post) = 11%nat).
  { rewrite length_app in *. cbn [length] in *. lia. }
  assert (Hc : c = Crc8.Checksum (pre ++ d :: post) crcT).
  { rewrite nth_error_app2 in Hcrc by lia.
    rewrite firstn_app, Hl11, Nat.sub_diag, firstn_O, app_nil_r in Hcrc.
    rewrite firstn_all2 in Hcrc by lia.
    cbn [Nat.sub nth_error] in Hcrc. congruence. }
  assert (Hch : changed = (pre ++ d' :: post) ++ [c])
    by (unfold changed; rewrite <- app_assoc; reflexivity).
  assert (Hfcs : Crc8.Checksum (pre ++ d' :: post) crcT <> c).
  { rewrite Hc. intros H. apply (Checksum_one_byte pre post d d' Hneq).
    symmetry. exact H. }
  assert (Hcap : (8 <= cap (of_list changed))%nat).
  { unfold cap, of_list. cbn [elems spare].
    rewrite app_nil_r, Hch, length_app, Hl11'. cbn [length]. lia. }
  rewrite (Validate_spec _ Hcap). cbv zeta.
  unfold of_list, len. cbn [elems spare]. rewrite app_nil_r.
  fold (word_of changed). fold (version_of changed).
  assert (Hlen' : length changed = 12%nat)
    by (rewrite Hch, length_app, Hl11'; reflexivity).
  rewrite Hlen'. cbn [Nat.eqb negb].
  assert (Hf11 : firstn 11 changed = pre ++ d' :: post).
  { rewrite Hch, firstn_app, Hl11', Nat.sub_diag, firstn_O, app_nil_r.
    apply firstn_all2. lia. }
  assert (Hn11 : nth 11 changed Byte.x00 = c).
  { rewrite Hch, app_nth2 by lia. rewrite Hl11'. reflexivity. }
  rewrite Hf11, Hn11.
  destruct (Z.eqb_spec (version_of changed) 1) as [Hv | Hv]; cbn [negb].
  - right. split; [exact Hv | ]. split; [exact Hfcs | ].
    destruct (Byte.eqb (Crc8.Checksum (pre ++ d' :: post) crcT) c) eqn:Eb;
      [ | reflexivity].
    apply Byte.byte_dec_bl in Eb. contradiction.
  - left. split; [exact Hv | reflexivity].
Qed.

Lemma one_byte_change_rejected_witness :
  Validate (of_list (firstn 9 Samples.valid_id ++ Byte.xab
                       :: [Byte.xaa] ++ [Byte.xf2])) =
  Ret (Some (crc_error
               (Crc8.Checksum (firstn 9 Samples.valid_id ++ Byte.xab :: [Byte.xaa])
                              crcT)
               Byte.xf2)).
Proof.
  destruct (one_byte_change_rejected (firstn 9 Samples.valid_id) [Byte.xaa]
              Byte.xaa Byte.xab Byte.xf2) as [[Hv _] | (_ & _ & H)].
  - vm_compute. reflexivity.
  - discriminate.
  - exfalso. apply Hv. vm_compute. reflexivity.
  - exact H.
Defined.

Section Distinct.

Lemma increasing_NoDup (l : list Z) : Sorted Z.lt l -> NoDup l.
Proof.
  intros Hs. apply Sorted_StronglySorted in Hs; [ | exact Z.lt_trans].
  induction Hs as [ | a l _ IH Hall]; constructor; [ | exact IH].
  intros Hin. rewrite Forall_forall in Hall.
  specialize (Hall a Hin). lia.
Qed.

End Distinct.

(** While the clock advances from call to call (strictly increasing
    microsecond counts below [2^52]), the identifiers of successive [Next]
    calls are pairwise different. *)
Theorem Nexts_distinct_while_clock_advances
  (wid : Z) (f f' : flake) (clock : list Z) (ids : list (list byte)) :
  reachable wid f ->
  Forall (fun now => usec now < 2 ^ 52) clock ->
  Sorted (fun a b => usec a < usec b) clock ->
  Nexts clock f = Ret (ids, f') ->
  NoDup ids.
Proof.
  intros Hreach Hall Hsorted Hrun.
  pose proof (reachable_well_formed wid f Hreach) as Hwf.
  destruct (Nexts_in_slots wid clock f Hwf Hall)
    as (ids0 & f0 & Hrun0 & _ & Hslots).
  assert (ids = ids0) as -> by congruence.
  apply (NoDup_map_inv id_value), increasing_NoDup.
  exact (proj1 (slots_sorted clock ids0 Hslots Hsorted)).
Qed.

Lemma Nexts_distinct_while_clock_advances_witness :
  exists ids f',
    Nexts [1000; 2000; 3000] Samples.gen = Ret (ids, f') /\ NoDup ids.
Proof.
  assert (HF : Forall (fun now => usec now < 2 ^ 52) [1000; 2000; 3000])
    by (repeat constructor; vm_compute; reflexivity).
  assert (HS : Sorted (fun a b => usec a < usec b) [1000; 2000; 3000])
    by (repeat constructor; vm_compute; reflexivity).
  destruct (Nexts [1000; 2000; 3000] Samples.gen) as [[ids f'] | ] eqn:E.
  - exists ids, f'. split; [reflexivity | ].
    exact (Nexts_distinct_while_clock_advances
             Samples.AAx24 Samples.gen f' [1000; 2000; 3000] ids
             reachable_gen HF HS E).
  - vm_compute in E. discriminate E.
Defined.
